(** * Valheim stat tracker: the save-file decoders of [app/main.py]

    A shallow embedding of the two decoding pipelines of [app/main.py]:
    the skill-block locator and decoder ([find_skills_block],
    [decode_skills]) and the chest inventory decoder and aggregator
    ([read_u32] ... [read_u64], [decode_chest_items], [aggregate_chests]),
    and of the writer of the sheet of totals ([upload_totals]), followed
    by the properties of these functions.

    Conventions.
    - A Python [bytes] object is a [list byte]; a Python [str] is the list
      of its code points ([str]); a Python [int] is a [Z]; offsets and
      lengths of buffers are [nat].
    - A call that can raise returns a [result]: [Ok v] when it returns [v],
      [Raise e] when it raises the exception [e].
    - [struct], [io.BytesIO], [bytes.decode], [base64.b64decode] and
      [round] belong to the Python standard library; the definitions
      below that carry their names model what these functions do on the
      arguments the program gives them. *)

From Stdlib Require Import ZArith List Lia Bool String Ascii.
From Stdlib.Strings Require Import Byte.
From stdpp Require Import base numbers list option gmap strings pretty sorting.

(** ** Python values *)

(** Code points and strings. *)
Definition str : Type := list Z.

(** The [str] of an ASCII literal of the source. *)
Definition pystr (s : string) : str :=
  map (λ a, Z.of_nat (nat_of_ascii a)) (list_ascii_of_string s).

(** [len(s)] *)
Definition len {A} (l : list A) : Z := Z.of_nat (length l).

(** The value 0..255 of a byte. *)
Definition byte_val (b : byte) : Z := Z.of_N (Byte.to_N b).

(** The byte of value [z mod 256]. *)
Definition byte_of_Z (z : Z) : byte :=
  default x00 (Byte.of_N (Z.to_N (z mod 256))).

(** The exceptions the modelled code can raise. *)
Inductive exn : Type :=
  | StructError     (* struct.error: unpack requires a buffer of n bytes *)
  | BinasciiError   (* binascii.Error, raised by base64.b64decode *)
  | ValueError      (* base64.b64decode on a str with a non-ASCII character *)
  | RuntimeError.   (* raise RuntimeError("Could not locate skills block") *)

Inductive result (A : Type) : Type :=
  | Ok (a : A)
  | Raise (e : exn).
Arguments Ok {A} a.
Arguments Raise {A} e.

#[global] Instance result_ret : MRet result := λ A a, Ok a.
#[global] Instance result_bind : MBind result := λ A B k m,
  match m with
  | Ok a => k a
  | Raise e => Raise e
  end.

(** A [for x in l:] loop whose body updates a state and can raise. *)
Fixpoint for_each {S A} (body : S → A → result S) (s : S) (l : list A)
  : result S :=
  match l with
  | [] => Ok s
  | x :: l' => s' ← body s x; for_each body s' l'
  end.

(** ** [struct]: little-endian fields *)

(** The unsigned integer a little-endian byte string denotes. *)
Fixpoint le_uint (bs : list byte) : Z :=
  match bs with
  | [] => 0
  | b :: bs' => byte_val b + 256 * le_uint bs'
  end.

(** Two's complement reading of a [w]-bit unsigned value. *)
Definition to_signed (w : Z) (u : Z) : Z :=
  if (u <? 2 ^ (w - 1))%Z then u else (u - 2 ^ w)%Z.

(** An IEEE 754 binary32 value: not-a-number, an infinity, or the finite
    number [(-1)^neg * m * 2^e]. [struct] hands it to Python as a [float]
    (binary64), which holds every binary32 value exactly. *)
Inductive f32 : Type :=
  | F32NaN
  | F32Inf (neg : bool)
  | F32Fin (neg : bool) (m e : Z).

Definition f32_of_bits (u : Z) : f32 :=
  let neg := Z.testbit u 31 in
  let ex := Z.land (Z.shiftr u 23) 255 in
  let fr := Z.land u (2 ^ 23 - 1) in
  if (ex =? 255)%Z then (if (fr =? 0)%Z then F32Inf neg else F32NaN)
  else if (ex =? 0)%Z then F32Fin neg fr (-149)
  else F32Fin neg (2 ^ 23 + fr) (ex - 150).

(** Comparison of [m * 2^e] with the integer [k]. *)
Definition scaled_compare (m e k : Z) : comparison :=
  if (0 <=? e)%Z then (m * 2 ^ e ?= k)%Z else (m ?= k * 2 ^ (- e))%Z.

(** [k <= x] for the float [x] and the integer-valued float [k] *)
Definition f32_ge (x : f32) (k : Z) : bool :=
  match x with
  | F32NaN => false
  | F32Inf neg => negb neg
  | F32Fin neg m e =>
      match scaled_compare (if neg then - m else m) e k with
      | Lt => false
      | _ => true
      end
  end.

(** [x <= k] for the float [x] and the integer-valued float [k] *)
Definition f32_le (x : f32) (k : Z) : bool :=
  match x with
  | F32NaN => false
  | F32Inf neg => neg
  | F32Fin neg m e =>
      match scaled_compare (if neg then - m else m) e k with
      | Gt => false
      | _ => true
      end
  end.

(** [struct.unpack(fmt, bs)] for the one-field formats of the source: it
    raises [struct.error] unless [bs] has exactly the size of the format. *)
Definition unpack_sized {A} (size : nat) (conv : list byte → A)
    (bs : list byte) : result A :=
  if decide (length bs = size) then Ok (conv bs) else Raise StructError.

Definition unpack_I : list byte → result Z := unpack_sized 4 le_uint.
Definition unpack_i : list byte → result Z :=
  unpack_sized 4 (λ bs, to_signed 32 (le_uint bs)).
Definition unpack_f : list byte → result f32 :=
  unpack_sized 4 (λ bs, f32_of_bits (le_uint bs)).
Definition unpack_B : list byte → result Z := unpack_sized 1 le_uint.
Definition unpack_Q : list byte → result Z := unpack_sized 8 le_uint.

(** [struct.unpack_from("<iff", data, pos)]: it raises [struct.error]
    unless 12 bytes are available at [pos]. *)
Definition unpack_from_iff (data : list byte) (pos : nat)
  : result (Z * f32 * f32) :=
  if decide (pos + 12 ≤ length data) then
    let bs := take 12 (drop pos data) in
    Ok (to_signed 32 (le_uint (take 4 bs)),
        f32_of_bits (le_uint (take 4 (drop 4 bs))),
        f32_of_bits (le_uint (take 4 (drop 8 bs))))
  else Raise StructError.

(** ** Player file: the skills block *)

(** [0 < sid < 200 and 0.0 <= lvl <= 1000.0] *)
Definition valid_skill (sid : Z) (lvl : f32) : bool :=
  (0 <? sid)%Z && (sid <? 200)%Z && f32_ge lvl 0 && f32_le lvl 1000.

Definition entry : nat := 12.

(** The inner [while] loop of [find_skills_block], from the state
    [(pos, count)]; it returns the final [count]. The loop increments
    [count] at every turn and stops at 64, so 64 turns are enough
    (see [skills_run_fuel]). *)
Fixpoint skills_run (fuel : nat) (data : list byte) (pos count : nat)
  : result nat :=
  match fuel with
  | 0 => Ok count
  | S fuel' =>
      if decide (pos + entry ≤ length data ∧ count < 64) then
        '(sid, lvl, acc) ← unpack_from_iff data pos;
        if valid_skill sid lvl
        then skills_run fuel' data (pos + entry) (count + 1)
        else Ok count
      else Ok count
  end.

(** The body of the [for start in range(...)] loop on the state
    [(best_start, best_count)]. *)
Definition find_skills_step (data : list byte) (best : option nat * nat)
    (start : nat) : result (option nat * nat) :=
  count ← skills_run 64 data start 0;
  if decide (best.2 < count) then Ok (Some start, count) else Ok best.

(** [find_skills_block(data)]; [range(0, len(data) - entry)] is empty
    when [len(data) <= entry], as is [seq 0 (length data - entry)]. *)
Definition find_skills_block (data : list byte) : result (option nat * nat) :=
  for_each (find_skills_step data) (None, 0) (seq 0 (length data - entry)).

(** [round(x, 2)] of a [float] that holds a binary32 value: the float
    nearest to the decimal with two fractional digits that is nearest to
    [x], ties going to the even last digit. The result is named by that
    decimal, in hundredths, and its sign. *)
Inductive level : Type :=
  | LevelNaN
  | LevelInf (neg : bool)
  | LevelDec (neg : bool) (hundredths : Z).

Definition round_half_even (num den : Z) : Z :=
  let q := (num / den)%Z in
  let r := (num mod den)%Z in
  match (2 * r ?= den)%Z with
  | Lt => q
  | Gt => (q + 1)%Z
  | Eq => if Z.even q then q else (q + 1)%Z
  end.

Definition round2 (x : f32) : level :=
  match x with
  | F32NaN => LevelNaN
  | F32Inf neg => LevelInf neg
  | F32Fin neg m e =>
      LevelDec neg
        (if (0 <=? e)%Z then (m * 2 ^ e * 100)%Z
         else round_half_even (m * 100) (2 ^ (- e)))
  end.

Section Skills.
(** [SKILL_MAP] of the module [constants], which maps skill ids to
    names. *)
Variable SKILL_MAP : gmap Z str.

(** [SKILL_MAP.get(sid, f"Skill_{sid}")] *)
Definition skill_name (sid : Z) : str :=
  default (pystr ("Skill_" +:+ pretty sid)) (SKILL_MAP !! sid).

(** The [while] loop of [decode_skills], from the state [(pos, skills)].
    Every turn moves [pos] forward by [entry], so [length data] turns
    are enough (see [skills_walk_fuel]). *)
Fixpoint skills_walk (fuel : nat) (data : list byte) (pos : nat)
    (skills : gmap str level) : result (gmap str level) :=
  match fuel with
  | 0 => Ok skills
  | S fuel' =>
      if decide (pos + entry ≤ length data) then
        '(sid, lvl, acc) ← unpack_from_iff data pos;
        if negb (valid_skill sid lvl) then Ok skills
        else
          let name := skill_name sid in
          skills_walk fuel' data (pos + entry) (<[name := round2 lvl]> skills)
      else Ok skills
  end.

(** [decode_skills(path)], on the bytes [data] read from the file. *)
Definition decode_skills (data : list byte) : result (gmap str level) :=
  '(start, count) ← find_skills_block data;
  match start with
  | Some start =>
      if decide (count = 0) then Raise RuntimeError
      else skills_walk (length data) data start ∅
  | None => Raise RuntimeError
  end.
End Skills.

(** ** World file: chest inventories *)

(** *** [io.BytesIO] *)

(** A [BytesIO] object: its contents and the position of its cursor. *)
Record BytesIO : Type := { bio_data : list byte; bio_pos : nat }.

(** Code that reads from a buffer: from the buffer it is given, it either
    raises or returns a value and the buffer with its cursor moved. *)
Definition reader (A : Type) : Type := BytesIO → result (A * BytesIO).

Definition rret {A} (a : A) : reader A := λ buf, Ok (a, buf).

Definition rbind {A B} (m : reader A) (k : A → reader B) : reader B :=
  λ buf,
    match m buf with
    | Ok (a, buf') => k a buf'
    | Raise e => Raise e
    end.

(** A call that raises or returns without touching the buffer. *)
Definition rlift {A} (r : result A) : reader A :=
  λ buf,
    match r with
    | Ok a => Ok (a, buf)
    | Raise e => Raise e
    end.

Notation "x <- m ;; k" := (rbind m (λ x, k))
  (at level 100, m at next level, right associativity).

(** [buf.read(size)]: the bytes from the cursor on, all of them when
    [size] is negative and at most [size] of them otherwise; the cursor
    moves past the bytes returned. It never raises. *)
Definition bio_read (size : Z) : reader (list byte) :=
  λ buf,
    let rest := drop (bio_pos buf) (bio_data buf) in
    let got := if (size <? 0)%Z then rest else take (Z.to_nat size) rest in
    Ok (got, {| bio_data := bio_data buf;
                bio_pos := bio_pos buf + length got |}).

(** *** The typed reads *)

Definition read_u32 : reader Z := bs <- bio_read 4 ;; rlift (unpack_I bs).
Definition read_i32 : reader Z := bs <- bio_read 4 ;; rlift (unpack_i bs).
Definition read_f32 : reader f32 := bs <- bio_read 4 ;; rlift (unpack_f bs).
Definition read_byte : reader Z := bs <- bio_read 1 ;; rlift (unpack_B bs).
Definition read_u64 : reader Z := bs <- bio_read 8 ;; rlift (unpack_Q bs).

(** *** [bytes.decode("utf-8", errors="replace")] *)

Definition is_continuation (c : Z) : bool := (128 <=? c)%Z && (c <? 192)%Z.

(** U+FFFD, which stands for every undecodable sequence. *)
Definition replacement : Z := 65533.

(** The decoder reads one character at a time. A byte that cannot start
    a character, and a start byte followed by a byte that cannot continue
    it, give one U+FFFD for the bytes accepted so far, and decoding goes on
    at the offending byte; a character cut short by the end of the input
    gives one U+FFFD. *)
Fixpoint utf8_decode_replace (bs : list byte) : str :=
  match bs with
  | [] => []
  | b0 :: r0 =>
      let c0 := byte_val b0 in
      if (c0 <? 128)%Z then c0 :: utf8_decode_replace r0
      else if (c0 <? 194)%Z then replacement :: utf8_decode_replace r0
      else if (c0 <? 224)%Z then
        match r0 with
        | [] => [replacement]
        | b1 :: r1 =>
            let c1 := byte_val b1 in
            if is_continuation c1
            then ((c0 - 192) * 64 + (c1 - 128))%Z :: utf8_decode_replace r1
            else replacement :: utf8_decode_replace r0
        end
      else if (c0 <? 240)%Z then
        match r0 with
        | [] => [replacement]
        | b1 :: r1 =>
            let c1 := byte_val b1 in
            if negb (is_continuation c1)
               || (if (c1 <? 160)%Z then (c0 =? 224)%Z else (c0 =? 237)%Z)
            then replacement :: utf8_decode_replace r0
            else
              match r1 with
              | [] => [replacement]
              | b2 :: r2 =>
                  let c2 := byte_val b2 in
                  if is_continuation c2
                  then ((c0 - 224) * 4096 + (c1 - 128) * 64 + (c2 - 128))%Z
                         :: utf8_decode_replace r2
                  else replacement :: utf8_decode_replace r1
              end
        end
      else if (c0 <? 245)%Z then
        match r0 with
        | [] => [replacement]
        | b1 :: r1 =>
            let c1 := byte_val b1 in
            if negb (is_continuation c1)
               || (if (c1 <? 144)%Z then (c0 =? 240)%Z else (c0 =? 244)%Z)
            then replacement :: utf8_decode_replace r0
            else
              match r1 with
              | [] => [replacement]
              | b2 :: r2 =>
                  let c2 := byte_val b2 in
                  if negb (is_continuation c2)
                  then replacement :: utf8_decode_replace r1
                  else
                    match r2 with
                    | [] => [replacement]
                    | b3 :: r3 =>
                        let c3 := byte_val b3 in
                        if is_continuation c3
                        then ((c0 - 240) * 262144 + (c1 - 128) * 4096
                              + (c2 - 128) * 64 + (c3 - 128))%Z
                               :: utf8_decode_replace r3
                        else replacement :: utf8_decode_replace r2
                    end
              end
        end
      else replacement :: utf8_decode_replace r0
  end.

(** A length byte and then [buf.read(n).decode("utf-8", errors="replace")],
    the way [decode_chest_items] reads the item name and the crafter
    name. *)
Definition read_lp_string : reader str :=
  n <- read_byte ;;
  bs <- bio_read n ;;
  rret (utf8_decode_replace bs).

(** *** [decode_chest_items] *)

(** The dictionary appended to [results] for one item. *)
Record item : Type := {
  name : str;
  stack : Z;
  durability : f32;
  equipped : bool;
  quality : Z;
  variant : Z;
  crafter_id : Z;
  crafter_name : option str
}.

(** Truth value of an [int] and of an optional [str]. *)
Definition truthy_int (n : Z) : bool := negb (n =? 0)%Z.
Definition truthy_str (s : option str) : bool :=
  match s with
  | Some (_ :: _) => true
  | _ => false
  end.

(** The value of [remaining] when [buf.read(remaining)] is called. *)
Definition item_remaining (has_crafter_name : Z) (crafter_name : option str)
  : Z :=
  let remaining := (35 - (1 + 4 + 4 + 8 + 1))%Z in
  if truthy_int has_crafter_name && truthy_str crafter_name
  then (remaining - (1 + len (default [] crafter_name)))%Z
  else remaining.

(** One turn of the loop up to the computation of [remaining]: the item
    that will be appended, and [remaining]. *)
Definition decode_item_fields : reader (item * Z) :=
  name <- read_lp_string ;;
  stack <- read_i32 ;;
  durability <- read_f32 ;;
  equipped <- read_byte ;;
  quality <- read_i32 ;;
  variant <- read_i32 ;;
  crafter_id <- read_u64 ;;
  has_crafter_name <- read_byte ;;
  crafter_name <-
    (if truthy_int has_crafter_name
     then (s <- read_lp_string ;; rret (Some s))
     else rret None) ;;
  rret ({| name := name; stack := stack; durability := durability;
           equipped := truthy_int equipped; quality := quality;
           variant := variant; crafter_id := crafter_id;
           crafter_name := crafter_name |},
        item_remaining has_crafter_name crafter_name).

(** One turn of the loop. *)
Definition decode_item : reader item :=
  fields <- decode_item_fields ;;
  _ <- bio_read fields.2 ;;
  rret fields.1.

(** [for _ in range(count):] with [results] as its state. *)
Fixpoint decode_items_loop (count : nat) (results : list item)
  : reader (list item) :=
  match count with
  | 0 => rret results
  | S count' =>
      it <- decode_item ;;
      decode_items_loop count' (results ++ [it])
  end.

(** The part of [decode_chest_items] that follows [base64.b64decode]. *)
Definition decode_items (raw : list byte) : result (list item) :=
  match
    (_header <- read_u32 ;;
     count <- read_u32 ;;
     decode_items_loop (Z.to_nat count) [])
      {| bio_data := raw; bio_pos := 0 |}
  with
  | Ok (results, _) => Ok results
  | Raise e => Raise e
  end.

(** *** [base64.b64decode] *)

(** The value of a character of the base64 alphabet. *)
Definition b64_digit (c : Z) : option Z :=
  if (65 <=? c)%Z && (c <=? 90)%Z then Some (c - 65)%Z
  else if (97 <=? c)%Z && (c <=? 122)%Z then Some (c - 71)%Z
  else if (48 <=? c)%Z && (c <=? 57)%Z then Some (c + 4)%Z
  else if (c =? 43)%Z then Some 62%Z
  else if (c =? 47)%Z then Some 63%Z
  else None.

(** [binascii.a2b_base64] without strict mode. Characters outside the
    alphabet are skipped; [quad_pos] is the position in the current group
    of four digits, [leftchar] holds the bits not yet written, and [pads]
    counts the [=] met since the last digit. A run of [=] that completes
    a group of at least two digits ends the decoding; a group left
    incomplete at the end of the input raises [binascii.Error]. *)
Fixpoint a2b_base64 (s : str) (quad_pos leftchar pads : Z) (out : list byte)
  : result (list byte) :=
  match s with
  | [] => if (quad_pos =? 0)%Z then Ok out else Raise BinasciiError
  | c :: s' =>
      if (c =? 61)%Z then
        if (2 <=? quad_pos)%Z then
          if (4 <=? quad_pos + (pads + 1))%Z then Ok out
          else a2b_base64 s' quad_pos leftchar (pads + 1) out
        else a2b_base64 s' quad_pos leftchar pads out
      else
        match b64_digit c with
        | None => a2b_base64 s' quad_pos leftchar pads out
        | Some d =>
            if (quad_pos =? 0)%Z then a2b_base64 s' 1 d 0 out
            else if (quad_pos =? 1)%Z then
              a2b_base64 s' 2 (Z.land d 15) 0
                (out ++ [byte_of_Z (Z.lor (Z.shiftl leftchar 2) (Z.shiftr d 4))])
            else if (quad_pos =? 2)%Z then
              a2b_base64 s' 3 (Z.land d 3) 0
                (out ++ [byte_of_Z (Z.lor (Z.shiftl leftchar 4) (Z.shiftr d 2))])
            else
              a2b_base64 s' 0 0 0
                (out ++ [byte_of_Z (Z.lor (Z.shiftl leftchar 6) d)])
        end
  end.

(** [base64.b64decode(s)] for a [str]: the string is first encoded to
    ASCII, which raises [ValueError] on any other character. *)
Definition b64decode (s : str) : result (list byte) :=
  if forallb (λ c, (c <? 128)%Z) s then a2b_base64 s 0 0 0 []
  else Raise ValueError.

(** *** The objects of the world export *)

(** An element of ["zdoList"]: the values under its keys ["prefabName"]
    and ["stringsByName"], [None] when the key is absent. *)
Record zdo : Type := {
  prefabName : option str;
  stringsByName : option (gmap str str)
}.

(** The exported world: the value under ["zdoList"], if any. *)
Record world : Type := { zdoList : option (list zdo) }.

(** [zdo.get("stringsByName", {}).get("items")] *)
Definition zdo_items (z : zdo) : option str :=
  default ∅ (stringsByName z) !! pystr "items".

Definition decode_chest_items (z : zdo) : result (list item) :=
  let items_b64 := zdo_items z in
  if negb (truthy_str items_b64) then Ok []
  else
    raw ← b64decode (default [] items_b64);
    decode_items raw.

(** *** [aggregate_chests] *)

(** [needle in hay] for two [str]. *)
Fixpoint str_startswith (needle hay : str) : bool :=
  match needle, hay with
  | [], _ => true
  | _ :: _, [] => false
  | n :: needle', h :: hay' => (n =? h)%Z && str_startswith needle' hay'
  end.

Fixpoint str_in (needle hay : str) : bool :=
  str_startswith needle hay
  || match hay with
     | [] => false
     | _ :: hay' => str_in needle hay'
     end.

(** The variables of [aggregate_chests], and the lines it has printed. *)
Record agg_state : Type := {
  totals : gmap str Z;
  all_items : list item;
  stdout : list str
}.

(** [totals[name] += stack; all_items.append(item_dict)], [totals] being
    a [defaultdict(int)]. *)
Definition add_item (st : agg_state) (it : item) : agg_state :=
  {| totals := <[name it := (default 0 (totals st !! name it) + stack it)%Z]>
                 (totals st);
     all_items := all_items st ++ [it];
     stdout := stdout st |}.

Definition print (line : str) (st : agg_state) : agg_state :=
  {| totals := totals st; all_items := all_items st;
     stdout := stdout st ++ [line] |}.

Section Chests.
(** [str.lower], which the Unicode character database defines. *)
Variable str_lower : str → str.

(** ["piece_chest" in prefab], with
    [prefab = (z.get("prefabName") or "").lower()]. *)
Definition is_chest (z : zdo) : bool :=
  let prefab := str_lower (default [] (prefabName z)) in
  str_in (pystr "piece_chest") prefab.

(** The body of [for z in zdos:]: the state after it, and the exception
    it raised, if any. *)
Definition aggregate_body (st : agg_state) (z : zdo)
  : agg_state * option exn :=
  if is_chest z then
    let items_b64 := zdo_items z in
    if truthy_str items_b64 then
      match decode_chest_items z with
      | Ok items => (fold_left add_item items st, None)
      | Raise e => (st, Some e)
      end
    else (print (pystr "Chest has no inventory") st, None)
  else (st, None).

Fixpoint aggregate_loop (zdos : list zdo) (st : agg_state)
  : agg_state * option exn :=
  match zdos with
  | [] => (st, None)
  | z :: zdos' =>
      match aggregate_body st z with
      | (st', None) => aggregate_loop zdos' st'
      | (st', Some e) => (st', Some e)
      end
  end.

(** [aggregate_chests(world_json_obj)]: the lines printed, and the
    outcome of the call. *)
Definition aggregate_chests (w : world) : list str * result (gmap str Z) :=
  let zdos := default [] (zdoList w) in
  let '(st, raised) :=
    aggregate_loop zdos {| totals := ∅; all_items := []; stdout := [] |} in
  (stdout st,
   match raised with
   | None => Ok (totals st)
   | Some e => Raise e
   end).
End Chests.

(** ** The sheet of the world totals *)

(** [s1 <= s2] for two [str]: the code points at the first position
    where they differ decide, and a prefix comes first. *)
Fixpoint str_le (s1 s2 : str) : bool :=
  match s1, s2 with
  | [], _ => true
  | _ :: _, [] => false
  | c1 :: s1', c2 :: s2' => (c1 <? c2)%Z || ((c1 =? c2)%Z && str_le s1' s2')
  end.

(** [lambda x: (-x[1], x[0])] on an item [(name, count)] of [totals]. *)
Definition totals_key (x : str * Z) : Z * str := ((- x.2)%Z, x.1).

(** [k1 <= k2] for two such tuples: first components first. *)
Definition key_le (k1 k2 : Z * str) : bool :=
  (k1.1 <? k2.1)%Z || ((k1.1 =? k2.1)%Z && str_le k1.2 k2.2).

(** The order [sorted] follows on the items. *)
Definition totals_le (x y : str * Z) : Prop :=
  key_le (totals_key x) (totals_key y) = true.

#[global] Instance totals_le_dec x y : Decision (totals_le x y).
Proof. unfold totals_le. apply _. Defined.

(** A cell of the sheet, and a row. *)
Inductive cell : Type :=
  | CellStr (s : str)
  | CellInt (n : Z).

Definition row : Type := list cell.

(** [upload_totals(sheet, totals)] on a worksheet seen as the list of its
    rows: [clear] empties it, [append_row] and [append_rows] add rows
    at its end. [now] is the time [datetime.now()] gives, formatted.
    The items of a dictionary have different names, hence different
    keys, so [sorted] returns the one ordering of the items that follows
    the keys, from whatever order the dictionary lists them in. *)
Definition upload_totals (now : str) (sheet : list row) (totals : gmap str Z)
  : list row :=
  let sheet : list row := [] in
  let sheet :=
    sheet ++ [[CellStr (pystr "Item"); CellStr (pystr "Total Count");
               CellStr (pystr "Last Updated (UTC)")]] in
  let rows :=
    map (λ x : str * Z, [CellStr x.1; CellInt x.2; CellStr now])
      (merge_sort totals_le (map_to_list totals)) in
  match rows with
  | [] => sheet
  | _ :: _ => sheet ++ rows
  end.

(** * Sample inputs *)

Definition bytes_of (l : list Z) : list byte := map byte_of_Z l.

(** The record of 10 ["Wood"] up to its crafter-name flag: name,
    stack count 10, durability 100.0, not equipped, quality 1, variant 0,
    crafter id 0, and the flag. *)
Definition wood_record (has_crafter_name : Z) : list Z :=
  ([4; 87; 111; 111; 100] ++ [10; 0; 0; 0] ++ [0; 0; 200; 66]
   ++ [0] ++ [1; 0; 0; 0] ++ [0; 0; 0; 0] ++ [0; 0; 0; 0; 0; 0; 0; 0]
   ++ [has_crafter_name])%Z.

(** The item this record decodes to. *)
Definition wood_item (crafter : option str) : item :=
  {| name := pystr "Wood"; stack := 10;
     durability := F32Fin false 13107200 (-17); equipped := false;
     quality := 1; variant := 0; crafter_id := 0; crafter_name := crafter |}.

(** Header 1, count 1. *)
Definition one_item_header : list Z := ([1; 0; 0; 0] ++ [1; 0; 0; 0])%Z.

(** An inventory of one item without crafter name, and its 17 reserved
    bytes. *)
Definition wood_payload : list byte :=
  bytes_of (one_item_header ++ wood_record 0 ++ replicate 17 0%Z).

(** The same item crafted by ["Bob"], with 17 - (1 + 3) reserved bytes. *)
Definition crafted_payload : list byte :=
  bytes_of (one_item_header ++ wood_record 1 ++ [3; 66; 111; 98]%Z
            ++ replicate 13 0%Z).

(** The same item with a crafter name of 17 letters [A], one more than
    the 35 bytes allow, and nothing after it. *)
Definition long_crafter_payload : list byte :=
  bytes_of (one_item_header ++ wood_record 1 ++ [17%Z] ++ replicate 17 65%Z).

(** The same item with the flag set and an empty crafter name, followed
    by 17 bytes. *)
Definition empty_crafter_payload : list byte :=
  bytes_of (one_item_header ++ wood_record 1 ++ [0%Z] ++ replicate 17 0%Z).

(** A buffer whose length byte announces three bytes and which holds one. *)
Definition short_string_buffer : BytesIO :=
  {| bio_data := bytes_of [3; 97]%Z; bio_pos := 0 |}.

(** [base64.b64encode(wood_payload)] *)
Definition wood_b64 : str :=
  pystr "AQAAAAEAAAAEV29vZAoAAAAAAMhCAAEAAAAAAAAAAAAAAAAAAAAAAAAAAAAAAAAAAAAAAAAAAAA=".

(** [base64.b64encode] of [long_crafter_payload] and of the first 20
    bytes of [wood_payload]. *)
Definition long_crafter_b64 : str :=
  pystr "AQAAAAEAAAAEV29vZAoAAAAAAMhCAAEAAAAAAAAAAAAAAAAAAAABEUFBQUFBQUFBQUFBQUFBQUFB".
Definition truncated_b64 : str := pystr "AQAAAAEAAAAEV29vZAoAAAAAAMg=".

(** [base64.b64encode] of the header word 1 and the item count 0. *)
Definition no_items_b64 : str := pystr "AQAAAAAAAAA=".

(** An object with a prefab name and an ["items"] string. *)
Definition object_with_items (prefab : string) (items_b64 : str) : zdo :=
  {| prefabName := Some (pystr prefab);
     stringsByName := Some {[ pystr "items" := items_b64 ]} |}.

(** Two chests and a player, each with the inventory of 10 ["Wood"]. *)
Definition wood_world : world :=
  {| zdoList :=
       Some [object_with_items "piece_chest_wood" wood_b64;
             object_with_items "Player" wood_b64;
             object_with_items "Piece_Chest_Private" wood_b64] |}.

(** A world whose second chest holds a truncated inventory. *)
Definition truncated_world : list zdo :=
  [object_with_items "piece_chest_wood" wood_b64;
   object_with_items "piece_chest_wood" truncated_b64;
   object_with_items "piece_chest_wood" wood_b64].

(** One skill record: id 1, level 0.0, accumulator 0.0. *)
Definition skill_one : list Z := [1; 0; 0; 0; 0; 0; 0; 0; 0; 0; 0; 0]%Z.

(** A player file that is exactly one valid skill record. *)
Definition single_record : list byte := bytes_of skill_one.

(** Two single valid records at the offsets 0 and 25, among bytes that
    hold no valid record. *)
Definition tie_buffer : list byte :=
  bytes_of (skill_one ++ replicate 13 255%Z ++ skill_one ++ [255%Z]).

(** Two records of the skill 7, of levels 100.0 and 0.5, and one byte. *)
Definition duplicate_block : list byte :=
  bytes_of ([7; 0; 0; 0; 0; 0; 200; 66; 0; 0; 0; 0]
            ++ [7; 0; 0; 0; 0; 0; 0; 63; 0; 0; 0; 0] ++ [255])%Z.

(** A name table with the skill 7. *)
Definition axes_map : gmap Z str := {[ 7%Z := pystr "Axes" ]}.

(** The table [decode_skills] gives for [duplicate_block]. *)
Definition duplicate_skills : gmap str level :=
  {[ pystr "Axes" := LevelDec false 50 ]}.

(** Two stacks of wood, the first crafted by ["Bob"]. *)
Definition two_items : list item :=
  [wood_item (Some (pystr "Bob")); wood_item None].

(** A chest and a player, and the two in the other order. *)
Definition chest_then_player : list zdo :=
  [object_with_items "piece_chest_wood" wood_b64;
   object_with_items "Player" wood_b64].

Definition player_then_chest : list zdo :=
  [object_with_items "Player" wood_b64;
   object_with_items "piece_chest_wood" wood_b64].

(** Totals with two equal counts. *)
Definition sample_totals : gmap str Z :=
  {[ pystr "Wood" := 20%Z; pystr "Axe" := 1%Z; pystr "Stone" := 20%Z ]}.

(** * Specification vocabulary *)

(** [remaining] in the words of the specification:
    [35 - (1 + 4 + 4 + 8 + 1) - (has_crafter_name ? 1 + len(crafter_name) : 0)],
    [len] counting the bytes of the crafter name. *)
Definition spec_remaining (has_crafter_name : Z) (crafter_name : list byte)
  : Z :=
  (35 - (1 + 4 + 4 + 8 + 1)
   - (if truthy_int has_crafter_name then 1 + len crafter_name else 0))%Z.


(** The record at offset [pos] of [data] passes the validity test of the
    two skill loops. *)
Definition valid_at (data : list byte) (pos : nat) : bool :=
  match unpack_from_iff data pos with
  | Ok (sid, lvl, _) => valid_skill sid lvl
  | Raise _ => false
  end.

(** The number of consecutive valid records from [pos], at most [n]. *)
Fixpoint run_length (n : nat) (data : list byte) (pos : nat) : nat :=
  match n with
  | 0 => 0
  | S n' => if valid_at data pos then S (run_length n' data (pos + entry)) else 0
  end.

(** [data] holds a run of exactly [n] valid records at [start], and no
    valid record at any other offset. *)
Definition isolated_run (data : list byte) (start n : nat) : Prop :=
  start + entry * n ≤ length data ∧
  ∀ pos, valid_at data pos = true ↔ ∃ k, k < n ∧ pos = start + entry * k.

(** What the scan of [find_skills_block] knows after the offsets below
    [n]: [best_count] bounds every run, and [best_start] is the lowest
    offset whose run reaches it. *)
Definition scan_inv (data : list byte) (n : nat) (best : option nat * nat)
  : Prop :=
  (∀ o, o < n → run_length 64 data o ≤ best.2) ∧
  match best.1 with
  | None => best.2 = 0
  | Some s =>
      s < n ∧ run_length 64 data s = best.2 ∧ 0 < best.2 ∧
      ∀ o, o < s → run_length 64 data o < best.2
  end.

(** [r = (sid, lvl)] is the valid skill record stored at [pos]. *)
Definition record_at (data : list byte) (pos : nat) (r : Z * f32) : Prop :=
  ∃ acc, unpack_from_iff data pos = Ok (r.1, r.2, acc)
         ∧ valid_skill r.1 r.2 = true.

(** [recs] are the records [decode_skills] reads from [start]: the valid
    records that follow each other from [start], up to the first offset
    that holds no valid record. *)
Definition records_from (data : list byte) (start : nat)
    (recs : list (Z * f32)) : Prop :=
  (∀ k r, recs !! k = Some r → record_at data (start + entry * k) r)
  ∧ valid_at data (start + entry * length recs) = false.

(** [skills[name] = round(lvl, 2)] for the record [r]. *)
Definition store_skill (SKILL_MAP : gmap Z str) (skills : gmap str level)
    (r : Z * f32) : gmap str level :=
  <[skill_name SKILL_MAP r.1 := round2 r.2]> skills.

(** The bytes left between the cursor and the end of the buffer. *)
Definition avail (buf : BytesIO) : nat := length (bio_data buf) - bio_pos buf.

(** The buffer with its cursor [n] bytes further. *)
Definition advance (buf : BytesIO) (n : nat) : BytesIO :=
  {| bio_data := bio_data buf; bio_pos := bio_pos buf + n |}.

(** The shape the five fixed-width reads share. *)
Definition read_fixed {A} (w : nat) (conv : list byte → A) : reader A :=
  bs <- bio_read (Z.of_nat w) ;; rlift (unpack_sized w conv bs).

(** The read [r] takes exactly [w] bytes: with [w] bytes left it returns
    the value of the [w] bytes at the cursor and moves the cursor by [w];
    with fewer it raises [struct.error]. *)
Definition exact_width {A} (r : reader A) (w : nat) (conv : list byte → A)
    (buf : BytesIO) : Prop :=
  (w ≤ avail buf →
   r buf = Ok (conv (take w (drop (bio_pos buf) (bio_data buf))),
               advance buf w))
  ∧ (avail buf < w → r buf = Raise StructError).

(** [totals[name] += stack] alone. *)
Definition add_total (t : gmap str Z) (it : item) : gmap str Z :=
  <[name it := (default 0 (t !! name it) + stack it)%Z]> t.

(** The sum of the stack counts of the items named [n]. *)
Fixpoint stack_sum (n : str) (items : list item) : Z :=
  match items with
  | [] => 0
  | it :: items' =>
      if decide (name it = n) then stack it + stack_sum n items'
      else stack_sum n items'
  end.

(** The items of an object whose payload decodes; none otherwise. *)
Definition decoded_items (z : zdo) : list item :=
  match decode_chest_items z with
  | Ok items => items
  | Raise _ => []
  end.

(** The items of the objects that [aggregate_chests] takes for chests,
    in the order of the objects. *)
Definition chest_items (str_lower : str → str) (zdos : list zdo) : list item :=
  concat (map (λ z, if is_chest str_lower z then decoded_items z else []) zdos).

(** [str.lower] on ASCII characters. *)
Definition ascii_lower (c : Z) : Z :=
  if (65 <=? c)%Z && (c <=? 90)%Z then (c + 32)%Z else c.

(** Whenever the read [m] returns, it has moved the cursor forward by at
    least [lo] bytes, without leaving the buffer. *)
Definition advances {A} (lo : nat) (m : reader A) : Prop :=
  ∀ buf a buf', m buf = Ok (a, buf') →
    ∃ k, buf' = advance buf k ∧ lo ≤ k ≤ avail buf.

(** The read [m] raises nothing but [struct.error]. *)
Definition raises_struct_only {A} (m : reader A) : Prop :=
  ∀ buf e, m buf = Raise e → e = StructError.

(** The fields of an item are those of its types: the two names have at
    most 255 characters, the stack count, the quality and the variant
    are signed 32-bit numbers, the crafter id is an unsigned 64-bit
    number, and the durability is a binary32 value. *)
Definition item_in_range (it : item) : Prop :=
  length (name it) ≤ 255
  ∧ (- 2 ^ 31 ≤ stack it < 2 ^ 31)%Z
  ∧ (∃ u, durability it = f32_of_bits u)
  ∧ (- 2 ^ 31 ≤ quality it < 2 ^ 31)%Z
  ∧ (- 2 ^ 31 ≤ variant it < 2 ^ 31)%Z
  ∧ (0 ≤ crafter_id it < 2 ^ 64)%Z
  ∧ match crafter_name it with
    | Some s => length s ≤ 255
    | None => True
    end.

(** ** A writer for the inventory layout

    The source only reads inventories. The functions below write the
    layout it reads, field by field in the order and the formats of
    [decode_chest_items]; they serve to state that the decoder returns
    what was written. *)

(** [n] on [w] little-endian bytes, as [struct.pack] writes it once [n]
    is reduced modulo [256 ^ w]. *)
Fixpoint le_bytes (w : nat) (n : Z) : list byte :=
  match w with
  | 0 => []
  | S w' => byte_of_Z n :: le_bytes w' (n / 256)
  end.

(** The bits of a binary32 value from its sign, exponent field and
    fraction field. *)
Definition f32_pack (neg : bool) (ex fr : Z) : Z :=
  ((if neg then 2 ^ 31 else 0) + ex * 2 ^ 23 + fr)%Z.

Definition f32_bits (x : f32) : Z :=
  match x with
  | F32NaN => f32_pack false 255 (2 ^ 22)
  | F32Inf neg => f32_pack neg 255 0
  | F32Fin neg m e =>
      if (m <? 2 ^ 23)%Z then f32_pack neg 0 m
      else f32_pack neg (e + 150) (m - 2 ^ 23)
  end.

(** The finite values of binary32, each written in one way only. *)
Definition f32_canonical (x : f32) : Prop :=
  match x with
  | F32Fin _ m e =>
      (e = -149 ∧ 0 ≤ m < 2 ^ 24)%Z ∨ (-149 < e ≤ 104 ∧ 2 ^ 23 ≤ m < 2 ^ 24)%Z
  | _ => True
  end.

(** A length byte and the bytes of an ASCII string. *)
Definition encode_str (s : str) : list byte :=
  byte_of_Z (len s) :: map byte_of_Z s.

(** The reserved bytes that follow the crafter name: what is left of 17
    once the length byte and the name are taken off, and 17 when there
    is no crafter name or an empty one. *)
Definition reserved (crafter : option str) : nat :=
  match crafter with
  | Some (c :: s) => 16 - length (c :: s)
  | _ => 17
  end.

(** The bytes of a record up to its optional crafter name. *)
Definition item_fields_bytes (it : item) : list byte :=
  encode_str (name it)
  ++ le_bytes 4 (stack it)
  ++ le_bytes 4 (f32_bits (durability it))
  ++ [byte_of_Z (if equipped it then 1 else 0)]
  ++ le_bytes 4 (quality it)
  ++ le_bytes 4 (variant it)
  ++ le_bytes 8 (crafter_id it)
  ++ [byte_of_Z (match crafter_name it with Some _ => 1 | None => 0 end)]
  ++ match crafter_name it with
     | Some s => encode_str s
     | None => []
     end.

Definition encode_item (it : item) : list byte :=
  item_fields_bytes it ++ replicate (reserved (crafter_name it)) x00.

(** A header word, the number of items, and the records. *)
Definition encode_inventory (header : Z) (items : list item) : list byte :=
  le_bytes 4 header ++ le_bytes 4 (len items) ++ concat (map encode_item items).

(** The items the writer can write: ASCII names, of at most 255
    characters for the item and at most 16 for the crafter, and fields
    in the ranges of their formats. *)
Definition item_encodable (it : item) : Prop :=
  Forall (λ c, (0 ≤ c < 128)%Z) (name it)
  ∧ length (name it) ≤ 255
  ∧ (- 2 ^ 31 ≤ stack it < 2 ^ 31)%Z
  ∧ f32_canonical (durability it)
  ∧ (- 2 ^ 31 ≤ quality it < 2 ^ 31)%Z
  ∧ (- 2 ^ 31 ≤ variant it < 2 ^ 31)%Z
  ∧ (0 ≤ crafter_id it < 2 ^ 64)%Z
  ∧ match crafter_name it with
    | Some s => Forall (λ c, (0 ≤ c < 128)%Z) s ∧ length s ≤ 16
    | None => True
    end.

(** From a buffer whose bytes at the cursor are [bs], the read [m]
    returns [a] and leaves the cursor after [bs]. *)
Definition reads_as {A} (m : reader A) (bs : list byte) (a : A) : Prop :=
  ∀ buf rest,
    drop (bio_pos buf) (bio_data buf) = bs ++ rest →
    m buf = Ok (a, advance buf (length bs)).

(** The objects [aggregate_chests] takes for chests and that carry no
    inventory payload. *)
Definition is_empty_chest (str_lower : str → str) (z : zdo) : bool :=
  is_chest str_lower z && negb (truthy_str (zdo_items z)).

Definition empty_chests (str_lower : str → str) (zdos : list zdo) : nat :=
  length (List.filter (is_empty_chest str_lower) zdos).

(** The first row of the sheet of totals, and the row of one item. *)
Definition totals_header : row :=
  [CellStr (pystr "Item"); CellStr (pystr "Total Count");
   CellStr (pystr "Last Updated (UTC)")].

Definition totals_row (now : str) (x : str * Z) : row :=
  [CellStr x.1; CellInt x.2; CellStr now].

(** [x] comes strictly before [y] in the sheet: a larger count, or the
    same count and a smaller name. *)
Definition totals_before (x y : str * Z) : Prop :=
  (y.2 < x.2)%Z ∨ (x.2 = y.2 ∧ str_le x.1 y.1 = true ∧ x.1 ≠ y.1).

(** ** A writer for base64 *)

(** The character of a base64 digit. *)
Definition b64_char (d : Z) : Z :=
  if (d <? 26)%Z then (d + 65)%Z
  else if (d <? 52)%Z then (d + 71)%Z
  else if (d <? 62)%Z then (d - 4)%Z
  else if (d =? 62)%Z then 43%Z
  else 47%Z.

(** [base64.b64encode(bs)], as a [str]. *)
Fixpoint b64encode (bs : list byte) : str :=
  match bs with
  | [] => []
  | [b0] =>
      let x := byte_val b0 in
      [b64_char (Z.shiftr x 2); b64_char (Z.shiftl (Z.land x 3) 4); 61; 61]%Z
  | [b0; b1] =>
      let x := byte_val b0 in
      let y := byte_val b1 in
      [b64_char (Z.shiftr x 2);
       b64_char (Z.lor (Z.shiftl (Z.land x 3) 4) (Z.shiftr y 4));
       b64_char (Z.shiftl (Z.land y 15) 2); 61]%Z
  | b0 :: b1 :: b2 :: rest =>
      let x := byte_val b0 in
      let y := byte_val b1 in
      let z := byte_val b2 in
      [b64_char (Z.shiftr x 2);
       b64_char (Z.lor (Z.shiftl (Z.land x 3) 4) (Z.shiftr y 4));
       b64_char (Z.lor (Z.shiftl (Z.land y 15) 2) (Z.shiftr z 6));
       b64_char (Z.land z 63)]%Z ++ b64encode rest
  end.

(** The second and third digits of a group of three bytes of values
    [x], [y], [z]. *)
Definition digit2 (x y : Z) : Z := Z.lor (Z.shiftl (Z.land x 3) 4) (Z.shiftr y 4).
Definition digit3 (y z : Z) : Z := Z.lor (Z.shiftl (Z.land y 15) 2) (Z.shiftr z 6).

(** * Properties of the skill decoders *)

Lemma for_each_app {S A} (body : S → A → result S) s l1 l2 :
  for_each body s (l1 ++ l2) = (s' ← for_each body s l1; for_each body s' l2).
Proof.
  revert s. induction l1 as [|x l1 IH]; intros s; simpl; [done|].
  destruct (body s x) as [s'|e]; simpl; [apply IH | done].
Qed.

Lemma unpack_from_iff_raise data pos :
  length data < pos + entry → unpack_from_iff data pos = Raise StructError.
Proof.
  unfold entry, unpack_from_iff. intros H. case_decide; [lia | done].
Qed.

Lemma unpack_from_iff_ok data pos :
  pos + entry ≤ length data → ∃ r, unpack_from_iff data pos = Ok r.
Proof.
  unfold entry, unpack_from_iff. intros H. case_decide; [by eexists | lia].
Qed.

Lemma valid_at_bound data pos :
  valid_at data pos = true → pos + entry ≤ length data.
Proof.
  unfold valid_at. intros H.
  destruct (decide (pos + entry ≤ length data)) as [|Hn]; [done|].
  rewrite unpack_from_iff_raise in H by lia. done.
Qed.

(** The inner loop never raises, and counts the run of valid records. *)
Lemma skills_run_spec fuel data pos count :
  skills_run fuel data pos count
  = Ok (count + run_length (fuel `min` (64 - count)) data pos).
Proof.
  revert pos count.
  induction fuel as [|fuel IH]; intros pos count; cbn [skills_run].
  { rewrite Nat.min_0_l. cbn [run_length]. f_equal. lia. }
  case_decide as Hc.
  - destruct Hc as [Hpos Hcount].
    replace (S fuel `min` (64 - count)) with (S (fuel `min` (64 - (count + 1))))
      by lia.
    cbn [run_length]. unfold valid_at.
    destruct (unpack_from_iff data pos) as [[[sid lvl] acc]|e] eqn:Hu;
      cbn [mbind result_bind].
    + destruct (valid_skill sid lvl); [|f_equal; lia].
      rewrite IH. f_equal. lia.
    + unfold unpack_from_iff, entry in *. case_decide; [done | lia].
  - destruct (decide (count < 64)) as [Hlt|Hge].
    + replace (S fuel `min` (64 - count)) with (S (fuel `min` (64 - (count + 1))))
        by lia.
      cbn [run_length]. unfold valid_at. rewrite unpack_from_iff_raise by lia.
      f_equal. lia.
    + replace (S fuel `min` (64 - count)) with 0 by lia.
      cbn [run_length]. f_equal. lia.
Qed.

(** Fuel: 64 turns always reach the end of the inner loop, and more turns
    change nothing. *)
Lemma skills_run_fuel fuel data pos count :
  64 - count ≤ fuel →
  skills_run fuel data pos count = skills_run (64 - count) data pos count.
Proof.
  intros H. rewrite !skills_run_spec. do 3 f_equal. lia.
Qed.

Lemma skills_run_64 data start :
  skills_run 64 data start 0 = Ok (run_length 64 data start).
Proof. rewrite skills_run_spec. reflexivity. Qed.

Lemma run_length_le n data pos : run_length n data pos ≤ n.
Proof.
  revert pos. induction n as [|n IH]; intros pos; simpl; [lia|].
  destruct (valid_at data pos); [|lia]. specialize (IH (pos + entry)). lia.
Qed.

Lemma run_length_bound n data pos :
  pos + entry * run_length n data pos ≤ pos `max` length data.
Proof.
  revert pos. induction n as [|n IH]; intros pos; simpl; [lia|].
  destruct (valid_at data pos) eqn:Hv; [|lia].
  apply valid_at_bound in Hv. specialize (IH (pos + entry)).
  unfold entry in *. lia.
Qed.

Lemma run_length_pos n data pos :
  0 < run_length n data pos → valid_at data pos = true.
Proof. destruct n; simpl; [lia|]. destruct (valid_at data pos); [done | lia]. Qed.

Lemma find_skills_step_spec data best start :
  find_skills_step data best start
  = Ok (if decide (best.2 < run_length 64 data start)
        then (Some start, run_length 64 data start) else best).
Proof.
  unfold find_skills_step. rewrite skills_run_64.
  cbn [mbind result_bind]. by case_decide.
Qed.

(** The outer loop never raises and keeps [scan_inv]. *)
Lemma find_skills_scan data n :
  ∃ best,
    for_each (find_skills_step data) (None, 0) (seq 0 n) = Ok best
    ∧ scan_inv data n best.
Proof.
  induction n as [|n (best & Hrun & Hall & Hbest)].
  { exists (None, 0). split; [done|]. split; [intros; lia | done]. }
  rewrite seq_S, for_each_app, Hrun. cbn [mbind result_bind for_each].
  rewrite Nat.add_0_l, find_skills_step_spec. eexists. split; [reflexivity|].
  destruct best as [bs bc]. unfold scan_inv in *. cbn [fst snd] in *.
  case_decide as Hlt; cbn [fst snd]; split.
  - intros o Ho. destruct (decide (o = n)) as [->|]; [lia|].
    specialize (Hall o). lia.
  - repeat split; [lia..|]. intros o Ho. specialize (Hall o). lia.
  - intros o Ho. destruct (decide (o = n)) as [->|]; [lia|].
    specialize (Hall o). lia.
  - destruct bs as [s|]; [|done].
    destruct Hbest as (? & ? & ? & ?). repeat split; [lia|done..].
Qed.

Lemma find_skills_block_spec data :
  ∃ best,
    find_skills_block data = Ok best
    ∧ scan_inv data (length data - entry) best.
Proof. apply find_skills_scan. Qed.

Lemma run_length_S n data pos :
  run_length (S n) data pos
  = if valid_at data pos then S (run_length n data (pos + entry)) else 0.
Proof. reflexivity. Qed.

#[global] Arguments run_length : simpl never.
#[global] Arguments skills_run : simpl never.

Lemma run_length_zero n data pos :
  valid_at data pos = false → run_length n data pos = 0.
Proof. intros H. destruct n; [done|]. by rewrite run_length_S, H. Qed.

(** In an isolated run, the run counted from its [k]-th record is the
    rest of the run. *)
Lemma isolated_run_length data start n m k :
  isolated_run data start n → k ≤ n →
  run_length m data (start + entry * k) = m `min` (n - k).
Proof.
  intros [Hlen Hval]. revert k.
  induction m as [|m IH]; intros k Hk; [done|]. rewrite run_length_S.
  destruct (decide (k < n)) as [Hlt|Hge].
  - replace (valid_at data (start + entry * k)) with true
      by (symmetry; apply Hval; eauto).
    replace (start + entry * k + entry) with (start + entry * (S k))
      by (unfold entry; lia).
    rewrite IH by lia. lia.
  - destruct (valid_at data (start + entry * k)) eqn:Hv; [|lia].
    apply Hval in Hv as (k' & Hk' & Heq). unfold entry in Heq. lia.
Qed.

Lemma isolated_run_elsewhere data start n m pos :
  isolated_run data start n →
  (∀ k, k < n → pos ≠ start + entry * k) →
  run_length m data pos = 0.
Proof.
  intros [_ Hval] Hne. apply run_length_zero.
  destruct (valid_at data pos) eqn:Hv; [|done].
  apply Hval in Hv as (k & Hk & ->). by destruct (Hne k).
Qed.

Lemma isolated_run_le data start n m pos :
  isolated_run data start n → run_length m data pos ≤ n.
Proof.
  intros Hrun.
  destruct (valid_at data pos) eqn:Hv.
  - pose proof Hrun as [_ Hval]. apply Hval in Hv as (k & Hk & ->).
    rewrite (isolated_run_length _ _ n) by (done || lia). lia.
  - rewrite run_length_zero by done. lia.
Qed.

(** C4. In a buffer that holds one run of [n] valid skill records
    (between 1 and 64) at the offset [start] and no valid record at any
    other offset, [find_skills_block] returns [(start, n)] when the run
    starts before the last record offset [len(data) - 12] of the buffer;
    when the run is a single record that ends the buffer, the scan never
    tries its offset and the function returns [(None, 0)]. *)
Theorem find_skills_block_isolated_run data start n :
  isolated_run data start n → 1 ≤ n ≤ 64 →
  find_skills_block data
  = Ok (if decide (start + entry < length data) then (Some start, n)
        else (None, 0)).
Proof.
  intros Hrun Hn.
  destruct (find_skills_block_spec data) as ([bs bc] & -> & Hall & Hbest).
  cbn [fst snd] in *. f_equal.
  assert (run_length 64 data start = n) as Hstart.
  { replace start with (start + entry * 0) by lia.
    rewrite (isolated_run_length _ _ n) by (done || lia). lia. }
  case_decide as Hin.
  - assert (n ≤ bc) by (rewrite <- Hstart; apply Hall; lia).
    destruct bs as [s|]; [|lia].
    destruct Hbest as (Hs & Hrs & Hpos & Hlow).
    assert (bc ≤ n) by (rewrite <- Hrs; by eapply isolated_run_le).
    assert (bc = n) as -> by lia.
    destruct (decide (s = start)) as [->|Hne]; [done|].
    destruct (valid_at data s) eqn:Hv.
    + pose proof Hrun as [_ Hval]. apply Hval in Hv as (k & Hk & ->).
      rewrite (isolated_run_length _ _ n) in Hrs by (done || lia).
      destruct k; [rewrite Nat.mul_0_r, Nat.add_0_r in Hne; done | lia].
    + rewrite run_length_zero in Hrs by done. lia.
  - destruct Hrun as [Hlen Hval]. destruct bs as [s|]; [|by subst].
    destruct Hbest as (Hs & Hrs & Hpos & _).
    assert (valid_at data s = true) as Hv
      by (apply (run_length_pos 64); lia).
    apply Hval in Hv as (k & Hk & ->). unfold entry in *. lia.
Qed.

(** C5. When two different offsets give runs of the same length [m], and
    no offset gives a longer run, [find_skills_block] returns the lowest
    offset whose run has length [m], with the count [m]. *)
Theorem find_skills_block_first_maximum data a b m :
  a < b → 0 < m →
  skills_run 64 data a 0 = Ok m →
  skills_run 64 data b 0 = Ok m →
  (∀ o c, skills_run 64 data o 0 = Ok c → c ≤ m) →
  ∃ s,
    find_skills_block data = Ok (Some s, m)
    ∧ s ≤ a
    ∧ skills_run 64 data s 0 = Ok m
    ∧ ∀ o, o < s → ∃ c, skills_run 64 data o 0 = Ok c ∧ c < m.
Proof.
  intros Hab Hm Ha Hb Hmax.
  rewrite skills_run_64 in Ha, Hb. injection Ha as Ha. injection Hb as Hb.
  assert (∀ o, run_length 64 data o ≤ m) as Hle
    by (intros o; apply (Hmax o); apply skills_run_64).
  assert (b + entry ≤ length data) as Hbound.
  { apply valid_at_bound, (run_length_pos 64). lia. }
  destruct (find_skills_block_spec data) as ([bs bc] & -> & Hall & Hbest).
  cbn [fst snd] in *.
  assert (m ≤ bc) by (rewrite <- Ha; apply Hall; lia).
  destruct bs as [s|]; [|lia].
  destruct Hbest as (Hs & Hrs & Hpos & Hlow).
  assert (bc = m) as -> by (specialize (Hle s); lia).
  exists s. split; [done|]. split.
  { destruct (decide (s ≤ a)); [done|]. specialize (Hlow a). lia. }
  split; [by rewrite skills_run_64, Hrs|].
  intros o Ho. exists (run_length 64 data o).
  split; [apply skills_run_64 | by apply Hlow].
Qed.

(** C9. A buffer of exactly 12 bytes gives [(None, 0)] whatever it
    holds; the start returned for any buffer lies strictly before the
    last record offset [len(data) - 12]; and a buffer whose only valid
    record starts at that last offset gives [(None, 0)]. *)
Theorem find_skills_block_skips_last_offset data :
  (length data = entry → find_skills_block data = Ok (None, 0))
  ∧ (∀ s c, find_skills_block data = Ok (Some s, c) →
            s + entry < length data)
  ∧ ((∀ o, o + entry < length data → valid_at data o = false) →
     find_skills_block data = Ok (None, 0)).
Proof.
  split; [|split].
  - intros Hlen. unfold find_skills_block. by rewrite Hlen, Nat.sub_diag.
  - intros s c Hfind.
    destruct (find_skills_block_spec data) as (best & Hb & _ & Hbest).
    rewrite Hfind in Hb. injection Hb as <-. cbn [fst snd] in Hbest. lia.
  - intros Hnone.
    destruct (find_skills_block_spec data) as ([bs bc] & -> & _ & Hbest).
    cbn [fst snd] in *. destruct bs as [s|]; [|by subst].
    destruct Hbest as (Hs & Hrs & Hpos & _).
    rewrite run_length_zero in Hrs by (apply Hnone; lia). lia.
Qed.

(** ** The skill table *)

Lemma pystr_inj s t : pystr s = pystr t → s = t.
Proof.
  unfold pystr. revert t.
  induction s as [|a s IH]; intros [|b t] Heq; try done.
  cbn [list_ascii_of_string map] in Heq. injection Heq as Hab Hst.
  apply Nat2Z.inj in Hab. f_equal; [|by apply IH].
  by rewrite <- (ascii_nat_embedding a), <- (ascii_nat_embedding b), Hab.
Qed.

Section SkillTable.
Variable SKILL_MAP : gmap Z str.

Lemma record_at_bound data pos r :
  record_at data pos r → pos + entry ≤ length data.
Proof.
  intros (acc & Hu & _). unfold unpack_from_iff, entry in *.
  case_decide; [done | discriminate].
Qed.

Lemma records_from_cons data start r recs :
  records_from data start (r :: recs) →
  record_at data start r ∧ records_from data (start + entry) recs.
Proof.
  intros [Hrec Hend]. split.
  - specialize (Hrec 0 r eq_refl).
    by rewrite Nat.mul_0_r, Nat.add_0_r in Hrec.
  - split.
    + intros k r' Hk. specialize (Hrec (S k) r' Hk).
      by replace (start + entry + entry * k) with (start + entry * S k)
        by lia.
    + cbn [length] in Hend.
      by replace (start + entry + entry * length recs)
        with (start + entry * S (length recs)) by lia.
Qed.

Lemma records_from_length data start recs :
  records_from data start recs → length recs ≤ length data.
Proof.
  intros [Hrec _].
  destruct (decide (length recs = 0)) as [->|Hne]; [lia|].
  destruct (lookup_lt_is_Some_2 recs (length recs - 1)) as [r Hr]; [lia|].
  apply Hrec, record_at_bound in Hr. unfold entry in Hr. lia.
Qed.

(** There is always such a list of records: the walk ends. *)
Lemma records_from_exists data start : ∃ recs, records_from data start recs.
Proof.
  remember (length data - start) as n eqn:Hn. revert start Hn.
  induction (lt_wf n) as [n _ IH]. intros start ->.
  destruct (valid_at data start) eqn:Hv.
  - pose proof (valid_at_bound _ _ Hv) as Hbound.
    destruct (IH (length data - (start + entry))
                ltac:(unfold entry in *; lia) (start + entry) eq_refl)
      as [recs [Hrecs Hend]].
    unfold valid_at in Hv.
    destruct (unpack_from_iff data start) as [[[sid lvl] acc]|e] eqn:Hu;
      [|done].
    exists ((sid, lvl) :: recs). split.
    + intros [|k] r Hk.
      * injection Hk as <-. rewrite Nat.mul_0_r, Nat.add_0_r. by exists acc.
      * replace (start + entry * S k) with (start + entry + entry * k) by lia.
        by apply Hrecs.
    + cbn [length].
      by replace (start + entry * S (length recs))
        with (start + entry + entry * length recs) by lia.
  - exists []. split; [by intros k r Hk|].
    cbn [length]. by rewrite Nat.mul_0_r, Nat.add_0_r.
Qed.

(** The loop of [decode_skills] stores the records that follow [pos],
    in order; it never raises, and [length recs] turns are enough. *)
Lemma skills_walk_spec fuel data pos recs skills :
  records_from data pos recs → length recs ≤ fuel →
  skills_walk SKILL_MAP fuel data pos skills
  = Ok (fold_left (store_skill SKILL_MAP) recs skills).
Proof.
  revert fuel pos skills.
  induction recs as [|r recs IH]; intros fuel pos skills Hrecs Hfuel.
  - destruct Hrecs as [_ Hend]. cbn [length] in Hend.
    rewrite Nat.mul_0_r, Nat.add_0_r in Hend.
    destruct fuel as [|fuel]; [done|]. cbn [skills_walk fold_left].
    case_decide as Hin; [|done]. unfold valid_at in Hend.
    destruct (unpack_from_iff_ok _ _ Hin) as ([[sid lvl] acc] & Hu).
    rewrite Hu in *. cbn [mbind result_bind]. by rewrite Hend.
  - apply records_from_cons in Hrecs as [Hrec Hrecs].
    destruct fuel as [|fuel]; [cbn [length] in Hfuel; lia|].
    cbn [skills_walk fold_left]. pose proof (record_at_bound _ _ _ Hrec).
    case_decide; [|lia]. destruct Hrec as (acc & -> & Hvalid).
    cbn [mbind result_bind]. rewrite Hvalid. cbn [negb].
    apply IH; [done|]. cbn [length] in Hfuel. lia.
Qed.

(** Fuel: [length data] turns always reach the end of the loop. *)
Lemma skills_walk_fuel fuel data pos recs skills :
  records_from data pos recs → length data ≤ fuel →
  skills_walk SKILL_MAP fuel data pos skills
  = skills_walk SKILL_MAP (length data) data pos skills.
Proof.
  intros Hrecs Hfuel. pose proof (records_from_length _ _ _ Hrecs).
  rewrite !(skills_walk_spec _ _ _ recs) by (done || lia). done.
Qed.

Lemma fold_store_lookup_ne recs skills n :
  (∀ r, r ∈ recs → skill_name SKILL_MAP r.1 ≠ n) →
  fold_left (store_skill SKILL_MAP) recs skills !! n = skills !! n.
Proof.
  revert skills. induction recs as [|r recs IH]; intros skills Hne; [done|].
  cbn [fold_left]. rewrite IH by (intros; apply Hne; by right).
  unfold store_skill. apply lookup_insert_ne, Hne. by left.
Qed.

(** The entry of a name holds the level of the last record stored
    under it. *)
Lemma fold_store_lookup_last l1 r l2 skills :
  (∀ r', r' ∈ l2 → skill_name SKILL_MAP r'.1 ≠ skill_name SKILL_MAP r.1) →
  fold_left (store_skill SKILL_MAP) (l1 ++ r :: l2) skills
    !! skill_name SKILL_MAP r.1 = Some (round2 r.2).
Proof.
  intros Hne. rewrite fold_left_app. cbn [fold_left].
  rewrite fold_store_lookup_ne by done.
  unfold store_skill at 1. apply lookup_insert_eq.
Qed.

Lemma fold_store_size recs skills :
  size (fold_left (store_skill SKILL_MAP) recs skills)
  ≤ size skills + length recs.
Proof.
  revert skills. induction recs as [|r recs IH]; intros skills;
    cbn [fold_left length]; [lia|].
  etrans; [apply IH|]. unfold store_skill. rewrite map_size_insert.
  destruct (skills !! _); unfold id; lia.
Qed.

Lemma fold_store_is_Some recs skills n :
  is_Some (skills !! n) →
  is_Some (fold_left (store_skill SKILL_MAP) recs skills !! n).
Proof.
  revert skills. induction recs as [|r recs IH]; intros skills Hn; [done|].
  cbn [fold_left]. apply IH. unfold store_skill.
  rewrite lookup_insert. case_decide; [by eexists | done].
Qed.

(** Two records stored under the same name leave a table with fewer
    entries than records. *)
Lemma fold_store_size_dup l1 r1 l2 r2 l3 :
  skill_name SKILL_MAP r1.1 = skill_name SKILL_MAP r2.1 →
  size (fold_left (store_skill SKILL_MAP) (l1 ++ r1 :: l2 ++ r2 :: l3) ∅)
  < length (l1 ++ r1 :: l2 ++ r2 :: l3).
Proof.
  intros Hname.
  replace (l1 ++ r1 :: l2 ++ r2 :: l3) with ((l1 ++ r1 :: l2) ++ r2 :: l3)
    by (by rewrite <- app_assoc).
  rewrite fold_left_app. cbn [fold_left].
  set (m1 := fold_left (store_skill SKILL_MAP) (l1 ++ r1 :: l2) ∅).
  assert (is_Some (m1 !! skill_name SKILL_MAP r2.1)) as [x Hx].
  { unfold m1. rewrite fold_left_app. cbn [fold_left].
    apply fold_store_is_Some. unfold store_skill.
    rewrite <- Hname, lookup_insert_eq. by eexists. }
  pose proof (fold_store_size l3 (store_skill SKILL_MAP m1 r2)) as H3.
  pose proof (fold_store_size (l1 ++ r1 :: l2) ∅) as H1. fold m1 in H1.
  rewrite map_size_empty in H1.
  assert (size (store_skill SKILL_MAP m1 r2) = size m1) as Heq.
  { unfold store_skill. by rewrite map_size_insert, Hx. }
  rewrite !length_app in *. cbn [length] in *. lia.
Qed.
(** C10. When the block [decode_skills] reads holds two records with
    the same skill id, the table has one entry under the name of that
    id, its level is the rounded level of the last record with that id,
    and the table has strictly fewer entries than the block has
    records. The name of the id is taken to belong to no other id of
    the block. *)
Theorem decode_skills_duplicate_id data start count recs i j sid li lj :
  find_skills_block data = Ok (Some start, count) →
  records_from data start recs →
  i < j →
  recs !! i = Some (sid, li) →
  recs !! j = Some (sid, lj) →
  (∀ k r, j < k → recs !! k = Some r → r.1 ≠ sid) →
  (∀ r, r ∈ recs →
        skill_name SKILL_MAP r.1 = skill_name SKILL_MAP sid → r.1 = sid) →
  ∃ skills,
    decode_skills SKILL_MAP data = Ok skills
    ∧ skills !! skill_name SKILL_MAP sid = Some (round2 lj)
    ∧ size skills < length recs.
Proof.
  intros Hfind Hrecs Hij Hi Hj Hlast Hinj.
  assert (0 < count) as Hcount.
  { destruct (find_skills_block_spec data) as (best & Hb & _ & Hbest).
    rewrite Hfind in Hb. injection Hb as <-. cbn [fst snd] in Hbest. lia. }
  exists (fold_left (store_skill SKILL_MAP) recs ∅). split; [|split].
  - unfold decode_skills. rewrite Hfind. cbn [mbind result_bind].
    case_decide; [lia|].
    apply skills_walk_spec; [done|]. by eapply records_from_length.
  - rewrite <- (take_drop_middle recs j (sid, lj)) by done.
    apply (fold_store_lookup_last _ (sid, lj)). cbn [fst].
    intros r Hr Hname.
    apply list_elem_of_lookup in Hr as [k Hk]. rewrite lookup_drop in Hk.
    apply (Hlast (S j + k) r); [lia | done |].
    apply Hinj; [|done]. by eapply list_elem_of_lookup_2.
  - assert (take j recs !! i = Some (sid, li)) as Hi'
      by (by rewrite lookup_take_lt).
    rewrite <- (take_drop_middle recs j (sid, lj)) by done.
    rewrite <- (take_drop_middle (take j recs) i (sid, li)) by done.
    rewrite <- app_assoc. cbn [app]. by apply fold_store_size_dup.
Qed.

(** [decode_skills] always ends: it raises [RuntimeError] when no block
    is found, and otherwise returns the table of the records that follow
    the start of the block. *)
Lemma decode_skills_returns data :
  (∃ count, find_skills_block data = Ok (None, count)
            ∧ decode_skills SKILL_MAP data = Raise RuntimeError)
  ∨ (∃ start count recs,
       find_skills_block data = Ok (Some start, count)
       ∧ records_from data start recs
       ∧ decode_skills SKILL_MAP data
         = Ok (fold_left (store_skill SKILL_MAP) recs ∅)).
Proof.
  destruct (find_skills_block_spec data) as ([[start|] count] & Hfind & _ & Hb).
  - right. destruct (records_from_exists data start) as [recs Hrecs].
    exists start, count, recs. split; [done|]. split; [done|].
    unfold decode_skills. rewrite Hfind. cbn [mbind result_bind].
    cbn [fst snd] in Hb. case_decide; [lia|].
    apply skills_walk_spec; [done|]. by eapply records_from_length.
  - left. exists count. split; [done|].
    unfold decode_skills. by rewrite Hfind.
Qed.

(** The names are as many as the ids as soon as [SKILL_MAP] gives
    different names to different ids and none of the form [Skill_n]. *)
Lemma skill_name_inj :
  (∀ a b n, SKILL_MAP !! a = Some n → SKILL_MAP !! b = Some n → a = b) →
  (∀ a b : Z, SKILL_MAP !! a ≠ Some (pystr ("Skill_" +:+ pretty b))) →
  ∀ a b : Z, skill_name SKILL_MAP a = skill_name SKILL_MAP b → a = b.
Proof.
  intros Hinj Hfresh a b. unfold skill_name.
  destruct (SKILL_MAP !! a) as [na|] eqn:Ha,
           (SKILL_MAP !! b) as [nb|] eqn:Hb;
    unfold default, from_option, id.
  - intros ->. by eapply Hinj.
  - intros ->. by destruct (Hfresh a b).
  - intros <-. by destruct (Hfresh b a).
  - intros Heq. apply pystr_inj in Heq.
    apply (inj (String.append "Skill_")) in Heq. by apply (inj pretty) in Heq.
Qed.
End SkillTable.

(** * Properties of the inventory decoder *)

(** ** The reads *)

Lemma rbind_ok {A B} (m : reader A) (k : A → reader B) buf a buf' :
  m buf = Ok (a, buf') → rbind m k buf = k a buf'.
Proof. unfold rbind. by intros ->. Qed.

Lemma rbind_raise {A B} (m : reader A) (k : A → reader B) buf e :
  m buf = Raise e → rbind m k buf = Raise e.
Proof. unfold rbind. by intros ->. Qed.

Lemma avail_length buf :
  length (drop (bio_pos buf) (bio_data buf)) = avail buf.
Proof. by rewrite length_drop. Qed.

Lemma avail_advance buf n : avail (advance buf n) = avail buf - n.
Proof. unfold avail, advance. cbn. lia. Qed.

Lemma advance_advance buf n m : advance (advance buf n) m = advance buf (n + m).
Proof. unfold advance. cbn. f_equal. lia. Qed.

Lemma drop_advance buf n :
  drop (bio_pos (advance buf n)) (bio_data (advance buf n))
  = drop n (drop (bio_pos buf) (bio_data buf)).
Proof. cbn. by rewrite drop_drop. Qed.

(** [buf.read(size)] returns what is left when it is asked for more, and
    everything when [size] is negative. *)
Lemma bio_read_nonneg (n : nat) buf :
  bio_read (Z.of_nat n) buf
  = Ok (take n (drop (bio_pos buf) (bio_data buf)),
        advance buf (n `min` avail buf)).
Proof.
  unfold bio_read, advance.
  replace (Z.of_nat n <? 0)%Z with false by (symmetry; apply Z.ltb_ge; lia).
  by rewrite Nat2Z.id, length_take, avail_length.
Qed.

Lemma bio_read_negative size buf :
  (size < 0)%Z →
  bio_read size buf
  = Ok (drop (bio_pos buf) (bio_data buf), advance buf (avail buf)).
Proof.
  intros Hneg. unfold bio_read, advance.
  replace (size <? 0)%Z with true by (symmetry; by apply Z.ltb_lt).
  by rewrite avail_length.
Qed.

Lemma read_fixed_exact {A} w (conv : list byte → A) buf :
  exact_width (read_fixed w conv) w conv buf.
Proof.
  unfold exact_width, read_fixed. split; intros Hw.
  - rewrite (rbind_ok _ _ _ _ _ (bio_read_nonneg w buf)).
    unfold rlift, unpack_sized. rewrite length_take, avail_length.
    case_decide; [|lia]. by replace (w `min` avail buf) with w by lia.
  - rewrite (rbind_ok _ _ _ _ _ (bio_read_nonneg w buf)).
    unfold rlift, unpack_sized. rewrite length_take, avail_length.
    case_decide; [lia | done].
Qed.

Lemma read_byte_at buf b :
  bio_data buf !! bio_pos buf = Some b →
  read_byte buf = Ok (byte_val b, advance buf 1).
Proof.
  intros Hb. pose proof (lookup_lt_Some _ _ _ Hb) as Hlt.
  destruct (read_fixed_exact 1 le_uint buf) as [Hok _].
  change (read_fixed 1 le_uint) with read_byte in Hok.
  rewrite Hok by (unfold avail; lia). do 2 f_equal.
  rewrite <- (take_drop_middle _ _ _ Hb), drop_app_length'
    by (rewrite length_take; lia).
  cbn. rewrite take_0. cbn. lia.
Qed.

Lemma read_byte_end buf : avail buf = 0 → read_byte buf = Raise StructError.
Proof.
  intros Hend. destruct (read_fixed_exact 1 le_uint buf) as [_ Hraise].
  apply Hraise. lia.
Qed.

(** The string read: only its length byte has to be there. *)
Lemma read_lp_string_at buf b :
  bio_data buf !! bio_pos buf = Some b →
  read_lp_string buf
  = Ok (utf8_decode_replace
          (take (Z.to_nat (byte_val b))
                (drop (bio_pos buf + 1) (bio_data buf))),
        advance buf (1 + Z.to_nat (byte_val b) `min` (avail buf - 1))).
Proof.
  intros Hb. unfold read_lp_string.
  rewrite (rbind_ok _ _ _ _ _ (read_byte_at _ _ Hb)).
  assert (0 ≤ byte_val b)%Z by (unfold byte_val; lia).
  rewrite <- (Z2Nat.id (byte_val b)) at 1 by done.
  rewrite (rbind_ok _ _ _ _ _ (bio_read_nonneg _ _)).
  unfold rret. by rewrite avail_advance, advance_advance.
Qed.

Lemma read_lp_string_end buf :
  avail buf = 0 → read_lp_string buf = Raise StructError.
Proof.
  intros Hend. unfold read_lp_string.
  by rewrite (rbind_raise _ _ _ _ (read_byte_end _ Hend)).
Qed.

(** C3, amended. Each of the five fixed-width reads raises [struct.error]
    when fewer bytes than its width are left, and otherwise returns the
    value of exactly that many bytes and moves the cursor by exactly
    that width. The length-prefixed string read raises only when its
    length byte is missing: when fewer bytes than the length byte
    announces are left, it returns the string decoded from the bytes that
    are left and leaves the cursor at the end of the buffer. *)
Theorem typed_reads_bounds (buf : BytesIO) :
  exact_width read_u32 4 le_uint buf
  ∧ exact_width read_i32 4 (λ bs, to_signed 32 (le_uint bs)) buf
  ∧ exact_width read_f32 4 (λ bs, f32_of_bits (le_uint bs)) buf
  ∧ exact_width read_byte 1 le_uint buf
  ∧ exact_width read_u64 8 le_uint buf
  ∧ (avail buf = 0 → read_lp_string buf = Raise StructError)
  ∧ (∀ b, bio_data buf !! bio_pos buf = Some b →
          read_lp_string buf
          = Ok (utf8_decode_replace
                  (take (Z.to_nat (byte_val b))
                        (drop (bio_pos buf + 1) (bio_data buf))),
                advance buf (1 + Z.to_nat (byte_val b) `min` (avail buf - 1)))).
Proof.
  split; [exact (read_fixed_exact 4 le_uint buf)|].
  split; [exact (read_fixed_exact 4 (λ bs, to_signed 32 (le_uint bs)) buf)|].
  split; [exact (read_fixed_exact 4 (λ bs, f32_of_bits (le_uint bs)) buf)|].
  split; [exact (read_fixed_exact 1 le_uint buf)|].
  split; [exact (read_fixed_exact 8 le_uint buf)|].
  split; [apply read_lp_string_end | apply read_lp_string_at].
Qed.

Lemma read_fixed_ok {A} w (conv : list byte → A) buf :
  w ≤ avail buf → ∃ v, read_fixed w conv buf = Ok (v, advance buf w).
Proof.
  intros Hw. eexists. by apply (proj1 (read_fixed_exact w conv buf)).
Qed.

(** ** One item record *)

(** The reads that follow the item name, up to the crafter id, take 25
    bytes, and the flag that follows them one more. *)
Lemma decode_item_fields_at buf nl flag :
  bio_data buf !! bio_pos buf = Some nl →
  bio_data buf !! (bio_pos buf + (Z.to_nat (byte_val nl) + 26)) = Some flag →
  ∃ name stack durability equipped quality variant crafter_id,
    decode_item_fields buf
    = (crafter_name <-
         (if truthy_int (byte_val flag)
          then (s <- read_lp_string ;; rret (Some s))
          else rret None) ;;
       rret ({| name := name; stack := stack; durability := durability;
                equipped := equipped; quality := quality;
                variant := variant; crafter_id := crafter_id;
                crafter_name := crafter_name |},
             item_remaining (byte_val flag) crafter_name))
        (advance buf (Z.to_nat (byte_val nl) + 27)).
Proof.
  intros Hnl Hflag. set (n := Z.to_nat (byte_val nl)) in *.
  pose proof (lookup_lt_Some _ _ _ Hflag) as Hlen.
  assert (n + 27 ≤ avail buf) as Havail by (unfold avail; lia).
  unfold decode_item_fields.
  rewrite (rbind_ok _ _ _ _ _ (read_lp_string_at _ _ Hnl)). fold n.
  replace (1 + n `min` (avail buf - 1)) with (1 + n) by lia.
  destruct (read_fixed_ok 4 (λ bs, to_signed 32 (le_uint bs))
              (advance buf (1 + n))) as [stack Hstack];
    [rewrite avail_advance; lia|].
  rewrite (rbind_ok _ _ _ _ _ Hstack), advance_advance.
  destruct (read_fixed_ok 4 (λ bs, f32_of_bits (le_uint bs))
              (advance buf (1 + n + 4))) as [durability Hdur];
    [rewrite avail_advance; lia|].
  rewrite (rbind_ok _ _ _ _ _ Hdur), advance_advance.
  destruct (read_fixed_ok 1 le_uint (advance buf (1 + n + 4 + 4)))
    as [equipped Heq]; [rewrite avail_advance; lia|].
  rewrite (rbind_ok _ _ _ _ _ Heq), advance_advance.
  destruct (read_fixed_ok 4 (λ bs, to_signed 32 (le_uint bs))
              (advance buf (1 + n + 4 + 4 + 1))) as [quality Hq];
    [rewrite avail_advance; lia|].
  rewrite (rbind_ok _ _ _ _ _ Hq), advance_advance.
  destruct (read_fixed_ok 4 (λ bs, to_signed 32 (le_uint bs))
              (advance buf (1 + n + 4 + 4 + 1 + 4))) as [variant Hv];
    [rewrite avail_advance; lia|].
  rewrite (rbind_ok _ _ _ _ _ Hv), advance_advance.
  destruct (read_fixed_ok 8 le_uint (advance buf (1 + n + 4 + 4 + 1 + 4 + 4)))
    as [crafter_id Hcid]; [rewrite avail_advance; lia|].
  rewrite (rbind_ok _ _ _ _ _ Hcid), advance_advance.
  replace (1 + n + 4 + 4 + 1 + 4 + 4 + 8) with (n + 26) by lia.
  rewrite (rbind_ok _ _ _ _ _ (read_byte_at (advance buf (n + 26)) flag Hflag)),
    advance_advance.
  replace (n + 26 + 1) with (n + 27) by lia.
  by exists (utf8_decode_replace
            (take n (drop (bio_pos buf + 1) (bio_data buf)))),
    stack, durability, (truthy_int equipped), quality, variant, crafter_id.
Qed.

(** A negative [remaining] makes [buf.read] take all that is left. *)
Lemma decode_item_negative buf it remaining buf1 :
  decode_item_fields buf = Ok ((it, remaining), buf1) →
  (remaining < 0)%Z →
  decode_item buf = Ok (it, advance buf1 (avail buf1)).
Proof.
  intros Hfields Hneg. unfold decode_item.
  rewrite (rbind_ok _ _ _ _ _ Hfields). cbn [fst snd].
  by rewrite (rbind_ok _ _ _ _ _ (bio_read_negative _ _ Hneg)).
Qed.

Lemma decode_item_end buf : avail buf = 0 → decode_item buf = Raise StructError.
Proof.
  intros Hend. unfold decode_item, decode_item_fields.
  by rewrite (rbind_raise _ _ _ _
                (rbind_raise _ _ _ _ (read_lp_string_end _ Hend))).
Qed.

(** C1, amended. [decode_chest_items] has no check on the sign of
    [remaining]. When [remaining] is negative for a record, the read
    takes every byte left in the buffer and the record is kept: the loop
    returns normally when that record is the last one the item count
    announces, and raises [struct.error] when it tries to read the next
    record otherwise. *)
Theorem decode_negative_remaining_reads_to_end buf it remaining buf1 :
  decode_item_fields buf = Ok ((it, remaining), buf1) →
  (remaining < 0)%Z →
  decode_item buf = Ok (it, advance buf1 (avail buf1))
  ∧ avail (advance buf1 (avail buf1)) = 0
  ∧ (∀ results,
       decode_items_loop 1 results buf
       = Ok (results ++ [it], advance buf1 (avail buf1)))
  ∧ (∀ n results,
       decode_items_loop (S (S n)) results buf = Raise StructError).
Proof.
  intros Hfields Hneg.
  pose proof (decode_item_negative _ _ _ _ Hfields Hneg) as Hitem.
  assert (avail (advance buf1 (avail buf1)) = 0) as Hend
    by (rewrite avail_advance; lia).
  split; [done|]. split; [done|]. split.
  - intros results. cbn [decode_items_loop].
    by rewrite (rbind_ok _ _ _ _ _ Hitem).
  - intros n results. cbn [decode_items_loop].
    rewrite (rbind_ok _ _ _ _ _ Hitem).
    by rewrite (rbind_raise _ _ _ _ (decode_item_end _ Hend)).
Qed.

(** ASCII bytes decode to themselves, one character for one byte. *)
Lemma utf8_decode_ascii bs :
  Forall (λ b, (byte_val b < 128)%Z) bs →
  utf8_decode_replace bs = map byte_val bs.
Proof.
  induction 1 as [|b bs Hb _ IH]; [done|].
  cbn [utf8_decode_replace map].
  replace (byte_val b <? 128)%Z with true by (symmetry; by apply Z.ltb_lt).
  by rewrite IH.
Qed.

(** C2, amended. For a record laid out in the buffer as: the name
    (length byte [nl] and bytes [nm]), the 25 bytes [mid] of the stack
    count, durability, equipped flag, quality, variant and crafter id,
    the flag [flag], the crafter name (length byte [cl] and ASCII bytes
    [cname]) when the flag is nonzero, and then the bytes [rest]: after
    the optional crafter name the cursor moves by exactly
    [35 - (1 + 4 + 4 + 8 + 1)] bytes, less [1 + len(cname)] when the flag
    is nonzero and the crafter name is not empty, provided this number is
    not negative and that many bytes are left. With a nonzero flag and an
    empty crafter name nothing is subtracted. *)
Theorem decode_item_skips_remaining data pos nl nm mid flag cl cname rest :
  let crafter := if truthy_int (byte_val flag) then cl :: cname else [] in
  let remaining :=
    (35 - (1 + 4 + 4 + 8 + 1)
     - (if truthy_int (byte_val flag) && bool_decide (cname ≠ [])
        then 1 + len cname else 0))%Z in
  let after_crafter := pos + (length nm + 27) + length crafter in
  drop pos data = nl :: nm ++ mid ++ flag :: crafter ++ rest →
  length nm = Z.to_nat (byte_val nl) →
  length mid = 25 →
  length cname = Z.to_nat (byte_val cl) →
  Forall (λ b, (byte_val b < 128)%Z) cname →
  (0 ≤ remaining ≤ len rest)%Z →
  ∃ it,
    decode_item_fields {| bio_data := data; bio_pos := pos |}
    = Ok ((it, remaining), {| bio_data := data; bio_pos := after_crafter |})
    ∧ decode_item {| bio_data := data; bio_pos := pos |}
      = Ok (it, {| bio_data := data;
                   bio_pos := after_crafter + Z.to_nat remaining |}).
Proof.
  intros crafter remaining after_crafter Hlayout Hnm Hmid Hcl Hascii Hrem.
  set (buf := {| bio_data := data; bio_pos := pos |}).
  assert (∀ k, drop (pos + k) data
               = drop k (nl :: nm ++ mid ++ flag :: crafter ++ rest)) as Hdrop
    by (intros k; by rewrite <- Hlayout, drop_drop).
  assert (∀ k, data !! (pos + k)
               = (nl :: nm ++ mid ++ flag :: crafter ++ rest) !! k) as Hlook
    by (intros k; by rewrite <- Hlayout, lookup_drop).
  assert (avail buf = length nm + 27 + length crafter + length rest) as Havail.
  { rewrite <- avail_length. cbn [bio_data bio_pos buf]. rewrite Hlayout.
    cbn [length]. rewrite !length_app. cbn [length]. rewrite length_app. lia. }
  assert (bio_data buf !! bio_pos buf = Some nl) as Hnl.
  { cbn. by rewrite <- (Nat.add_0_r pos), Hlook. }
  assert (bio_data buf !! (bio_pos buf + (Z.to_nat (byte_val nl) + 26))
          = Some flag) as Hflag.
  { cbn [bio_data bio_pos buf]. rewrite Hlook, <- Hnm.
    change (nl :: nm ++ mid ++ flag :: crafter ++ rest)
      with ((nl :: nm) ++ mid ++ flag :: crafter ++ rest).
    rewrite app_assoc. apply list_lookup_middle.
    rewrite length_app. cbn [length]. lia. }
  destruct (decode_item_fields_at buf nl flag Hnl Hflag)
    as (name & stack & durability & equipped & quality & variant
        & crafter_id & Hfields).
  rewrite <- Hnm in Hfields.
  assert (∃ crafter_name,
    decode_item_fields buf
    = Ok (({| name := name; stack := stack; durability := durability;
              equipped := equipped; quality := quality; variant := variant;
              crafter_id := crafter_id; crafter_name := crafter_name |},
           remaining),
          advance buf (length nm + 27 + length crafter)))
    as (crafter_name & Hres).
  { rewrite Hfields. subst crafter remaining.
    destruct (truthy_int (byte_val flag)) eqn:Hf.
    - assert (bio_data (advance buf (length nm + 27))
                !! bio_pos (advance buf (length nm + 27)) = Some cl) as Hc.
      { cbn [bio_data bio_pos buf advance]. rewrite Hlook.
        change (nl :: nm ++ mid ++ flag :: (cl :: cname) ++ rest)
          with ((nl :: nm) ++ mid ++ [flag] ++ cl :: cname ++ rest).
        rewrite !app_assoc. apply list_lookup_middle.
        rewrite !length_app. cbn [length]. lia. }
      rewrite (rbind_ok _ _ _ _ _
                 (rbind_ok _ _ _ _ _ (read_lp_string_at _ _ Hc))).
      unfold rret. rewrite advance_advance, avail_advance, <- Hcl.
      cbn [bio_data bio_pos buf advance length] in *.
      replace (pos + (length nm + 27) + 1) with (pos + (length nm + 28))
        by lia.
      rewrite Hdrop.
      change (nl :: nm ++ mid ++ flag :: (cl :: cname) ++ rest)
        with ((nl :: nm) ++ mid ++ [flag] ++ [cl] ++ cname ++ rest).
      rewrite !app_assoc, <- (app_assoc _ cname rest).
      rewrite drop_app_length' by (rewrite !length_app; cbn [length]; lia).
      rewrite take_app_length, utf8_decode_ascii by done.
      eexists. f_equal. f_equal.
      + f_equal. unfold item_remaining. rewrite Hf. cbn [andb default].
        unfold truthy_str, len, id. rewrite length_map.
        destruct cname; cbn [map]; [done|].
        by rewrite bool_decide_true by done.
      + unfold advance. cbn [bio_data bio_pos]. f_equal. lia.
    - unfold rbind at 1, rret at 1. eexists. unfold rret.
      f_equal. f_equal.
      + f_equal. unfold item_remaining. by rewrite Hf.
      + unfold advance. cbn [bio_data bio_pos length]. f_equal. lia. }
  eexists. split.
  { rewrite Hres. f_equal. f_equal. unfold advance, after_crafter.
    cbn [bio_data bio_pos buf]. f_equal. lia. }
  unfold decode_item. rewrite (rbind_ok _ _ _ _ _ Hres). cbn [fst snd].
  rewrite <- (Z2Nat.id remaining) at 1 by lia.
  rewrite (rbind_ok _ _ _ _ _ (bio_read_nonneg _ _)).
  unfold rret. rewrite avail_advance, advance_advance. f_equal. f_equal.
  unfold advance. cbn [bio_data bio_pos buf]. f_equal.
  unfold len in Hrem. fold after_crafter. lia.
Qed.

(** ** Empty inventories *)

Lemma decode_items_zero header rest :
  length header = 4 →
  decode_items (header ++ [x00; x00; x00; x00] ++ rest) = Ok [].
Proof.
  intros Hlen. unfold decode_items.
  set (raw := header ++ [x00; x00; x00; x00] ++ rest).
  set (buf := {| bio_data := raw; bio_pos := 0 |}).
  assert (8 ≤ avail buf) as Havail.
  { unfold avail, buf, raw. cbn [bio_data bio_pos].
    rewrite !length_app. cbn [length]. lia. }
  rewrite (rbind_ok _ _ _ _ _
             (proj1 (read_fixed_exact 4 le_uint buf) ltac:(lia))).
  rewrite (rbind_ok _ _ _ _ _
             (proj1 (read_fixed_exact 4 le_uint (advance buf 4))
                    ltac:(rewrite avail_advance; lia))).
  cbn [bio_data bio_pos advance buf]. unfold raw.
  rewrite drop_app_length' by done. by cbn.
Qed.

(** C8. [decode_chest_items] returns the empty list, and does not
    raise, for an object with no inventory payload (no ["items"] string,
    or an empty one) and for a payload that decodes to a header word
    followed by an item count of 0. *)
Theorem decode_chest_items_empty (z : zdo) :
  (zdo_items z = None ∨ zdo_items z = Some [] → decode_chest_items z = Ok [])
  ∧ (∀ s header rest,
       zdo_items z = Some s →
       b64decode s = Ok (header ++ [x00; x00; x00; x00] ++ rest) →
       length header = 4 →
       decode_chest_items z = Ok [])
  ∧ (∀ e, decode_chest_items z = Ok [] → decode_chest_items z ≠ Raise e).
Proof.
  split; [|split].
  - unfold decode_chest_items. by intros [-> | ->].
  - intros s header rest Hs Hb64 Hlen. unfold decode_chest_items.
    rewrite Hs. destruct s as [|c s]; [done|]. cbn [truthy_str negb].
    change (default [] (Some (c :: s))) with (c :: s). rewrite Hb64. cbn [mbind result_bind]. by apply decode_items_zero.
  - by intros e ->.
Qed.

(** ** Aggregation *)

Lemma totals_fold_add_item items st :
  totals (fold_left add_item items st) = fold_left add_total items (totals st).
Proof.
  revert st. induction items as [|it items IH]; intros st; [done|].
  cbn [fold_left]. by rewrite IH.
Qed.

Lemma stack_sum_absent n items : n ∉ name <$> items → stack_sum n items = 0%Z.
Proof.
  induction items as [|it items IH]; [done|]. cbn [stack_sum fmap list_fmap].
  intros Hn. apply not_elem_of_cons in Hn as [Hne Hn].
  case_decide; [congruence | by apply IH].
Qed.

(** The total of a name after a run of [totals[name] += stack]. *)
Lemma fold_add_total_lookup items t n :
  fold_left add_total items t !! n
  = if decide (n ∈ name <$> items)
    then Some (default 0 (t !! n) + stack_sum n items)%Z
    else t !! n.
Proof.
  revert t. induction items as [|it items IH]; intros t.
  { cbn. case_decide as Hin; [by apply elem_of_nil in Hin | done]. }
  cbn [fold_left stack_sum]. rewrite IH. unfold add_total.
  rewrite fmap_cons.
  destruct (decide (name it = n)) as [<-|Hne].
  - rewrite lookup_insert_eq. cbn [default].
    rewrite (decide_True (P := _ ∈ _ :: _)) by (by left).
    case_decide as Hin.
    + f_equal. unfold default, from_option, id. lia.
    + rewrite stack_sum_absent by done. f_equal. lia.
  - rewrite lookup_insert_ne by done.
    case_decide as Hin.
    + by rewrite decide_True by (by right).
    + rewrite decide_False; [done|].
      intros [?|?]%elem_of_cons; [congruence | done].
Qed.

Lemma str_startswith_spec needle hay :
  str_startswith needle hay = true ↔ ∃ r, hay = needle ++ r.
Proof.
  revert hay. induction needle as [|n needle IH]; intros hay.
  { split; [by exists hay | by destruct hay]. }
  destruct hay as [|h hay]; cbn [str_startswith].
  { split; [done | by intros [r Hr]]. }
  rewrite andb_true_iff, Z.eqb_eq, IH. split.
  - intros [-> [r ->]]. by exists r.
  - intros [r [= -> ->]]. eauto.
Qed.

(** [needle in hay] holds exactly when [needle] is a substring of [hay]. *)
Lemma str_in_spec needle hay :
  str_in needle hay = true ↔ ∃ l r, hay = l ++ needle ++ r.
Proof.
  induction hay as [|h hay IH]; cbn [str_in];
    rewrite orb_true_iff, str_startswith_spec.
  - split.
    + intros [[r Hr]|?]; [|done]. by exists [], r.
    + intros (l & r & Heq). left. exists r.
      destruct l; [done | discriminate].
  - rewrite IH. split.
    + intros [[r Hr]|(l & r & ->)]; [by exists [], r | by exists (h :: l), r].
    + intros ([|h' l] & r & Heq).
      * left. by exists r.
      * right. injection Heq as -> ->. by exists l, r.
Qed.

Lemma aggregate_loop_ext f g zdos st :
  (∀ z, z ∈ zdos → is_chest f z = is_chest g z) →
  aggregate_loop f zdos st = aggregate_loop g zdos st.
Proof.
  revert st. induction zdos as [|z zdos IH]; intros st Hext; [done|].
  cbn [aggregate_loop]. unfold aggregate_body.
  rewrite (Hext z) by (by left).
  destruct (is_chest g z), (truthy_str (zdo_items z));
    try (apply IH; intros; apply Hext; by right).
  destruct (decode_chest_items z); [|done].
  apply IH. intros. apply Hext. by right.
Qed.

Lemma is_ascii_Forall (s : str) :
  forallb (λ c, (0 <=? c)%Z && (c <? 128)%Z) s = true →
  Forall (λ c, (0 ≤ c < 128)%Z) s.
Proof.
  intros H. apply Forall_forall. intros c Hc.
  rewrite forallb_forall in H. specialize (H c).
  rewrite <- list_elem_of_In in H. specialize (H Hc).
  apply andb_true_iff in H as [H1%Z.leb_le H2%Z.ltb_lt]. lia.
Qed.

Section Aggregate.
Variable str_lower : str → str.

Lemma aggregate_loop_app l1 l2 st :
  aggregate_loop str_lower (l1 ++ l2) st
  = match aggregate_loop str_lower l1 st with
    | (st', None) => aggregate_loop str_lower l2 st'
    | (st', Some e) => (st', Some e)
    end.
Proof.
  revert st. induction l1 as [|z l1 IH]; intros st; [done|].
  cbn [app aggregate_loop].
  destruct (aggregate_body str_lower st z) as [st' [e|]]; [done | apply IH].
Qed.

Lemma aggregate_body_other st z :
  is_chest str_lower z = false → aggregate_body str_lower st z = (st, None).
Proof. unfold aggregate_body. by intros ->. Qed.

Lemma decode_chest_items_raise z e :
  decode_chest_items z = Raise e → truthy_str (zdo_items z) = true.
Proof.
  unfold decode_chest_items. by destruct (truthy_str (zdo_items z)).
Qed.

Lemma aggregate_body_raise st z e :
  is_chest str_lower z = true → decode_chest_items z = Raise e →
  aggregate_body str_lower st z = (st, Some e).
Proof.
  intros Hchest Hraise. unfold aggregate_body.
  by rewrite Hchest, (decode_chest_items_raise _ _ Hraise), Hraise.
Qed.

Lemma aggregate_body_ok st z items :
  is_chest str_lower z = true → decode_chest_items z = Ok items →
  ∃ st', aggregate_body str_lower st z = (st', None)
         ∧ totals st' = fold_left add_total items (totals st).
Proof.
  intros Hchest Hok. unfold aggregate_body. rewrite Hchest.
  destruct (truthy_str (zdo_items z)) eqn:Htruthy.
  - rewrite Hok. eexists. split; [done|]. apply totals_fold_add_item.
  - unfold decode_chest_items in Hok. rewrite Htruthy in Hok.
    injection Hok as <-. by eexists.
Qed.

(** When every chest decodes, the loop ends normally and has added the
    items of the chests, in order. *)
Lemma aggregate_loop_ok zdos st :
  (∀ z, z ∈ zdos → is_chest str_lower z = true →
        ∃ l, decode_chest_items z = Ok l) →
  ∃ st', aggregate_loop str_lower zdos st = (st', None)
         ∧ totals st' = fold_left add_total (chest_items str_lower zdos) (totals st).
Proof.
  revert st. induction zdos as [|z zdos IH]; intros st Hok.
  { by exists st. }
  cbn [aggregate_loop]. unfold chest_items.
  cbn [map concat]. rewrite fold_left_app.
  destruct (is_chest str_lower z) eqn:Hchest.
  - destruct (Hok z) as [l Hl]; [by left | done |].
    destruct (aggregate_body_ok st z l Hchest Hl) as (st1 & -> & Ht1).
    destruct (IH st1) as (st' & -> & Ht'); [intros; apply Hok; by (right || idtac)|].
    exists st'. split; [done|]. unfold decoded_items. rewrite Hl.
    by rewrite <- Ht1.
  - rewrite aggregate_body_other by done.
    destruct (IH st) as (st' & -> & Ht'); [intros; apply Hok; by (right || idtac)|].
    by exists st'.
Qed.

(** A chest whose payload raises stops the loop. *)
Lemma aggregate_loop_raise zdos st z e :
  z ∈ zdos → is_chest str_lower z = true → decode_chest_items z = Raise e →
  ∃ st' e', aggregate_loop str_lower zdos st = (st', Some e').
Proof.
  intros Hin Hchest Hraise. revert st.
  induction zdos as [|z0 zdos IH]; intros st; [by apply elem_of_nil in Hin|].
  cbn [aggregate_loop].
  destruct (aggregate_body str_lower st z0) as [st1 [e1|]] eqn:Hbody; [by eauto|].
  apply elem_of_cons in Hin as [<-|Hin]; [|by apply IH].
  rewrite (aggregate_body_raise st z e) in Hbody by done. done.
Qed.
(** C6. When the payload of a chest raises while the chests before it
    decode, [aggregate_chests] raises that same exception and returns
    no totals; and whenever the payload of some chest of the list
    raises, the call raises and returns no totals. *)
Theorem aggregate_chests_aborts zdos :
  (∀ pre z post e,
     zdos = pre ++ z :: post →
     is_chest str_lower z = true →
     decode_chest_items z = Raise e →
     (∀ z', z' ∈ pre → is_chest str_lower z' = true →
            ∃ l, decode_chest_items z' = Ok l) →
     (aggregate_chests str_lower {| zdoList := Some zdos |}).2 = Raise e)
  ∧ (∀ z e,
       z ∈ zdos →
       is_chest str_lower z = true →
       decode_chest_items z = Raise e →
       ∃ e', (aggregate_chests str_lower {| zdoList := Some zdos |}).2
             = Raise e').
Proof.
  split.
  - intros pre z post e -> Hchest Hraise Hpre.
    unfold aggregate_chests. cbn [zdoList default from_option id].
    rewrite aggregate_loop_app.
    destruct (aggregate_loop_ok pre
                {| totals := ∅; all_items := []; stdout := [] |} Hpre)
      as (st' & -> & _).
    cbn [aggregate_loop]. by rewrite (aggregate_body_raise st' z e).
  - intros z e Hin Hchest Hraise.
    unfold aggregate_chests. cbn [zdoList default from_option id].
    destruct (aggregate_loop_raise zdos
                {| totals := ∅; all_items := []; stdout := [] |}
                z e Hin Hchest Hraise) as (st' & e' & ->).
    by exists e'.
Qed.

(** An object that is not a chest changes nothing, whatever it holds. *)
Lemma aggregate_chests_skips pre z post :
  is_chest str_lower z = false →
  aggregate_chests str_lower {| zdoList := Some (pre ++ z :: post) |}
  = aggregate_chests str_lower {| zdoList := Some (pre ++ post) |}.
Proof.
  intros Hother. unfold aggregate_chests.
  cbn [zdoList default from_option id]. rewrite !aggregate_loop_app.
  destruct (aggregate_loop str_lower pre _) as [st' [e|]]; [done|].
  cbn [aggregate_loop]. by rewrite aggregate_body_other.
Qed.

(** [str.lower] on a string of ASCII characters. *)
Hypothesis str_lower_ascii :
  ∀ s, Forall (λ c, (0 ≤ c < 128)%Z) s → str_lower s = map ascii_lower s.

Lemma is_chest_ascii z :
  forallb (λ c, (0 <=? c)%Z && (c <? 128)%Z) (default [] (prefabName z))
  = true →
  is_chest str_lower z = is_chest (map ascii_lower) z.
Proof.
  intros Hascii. unfold is_chest.
  by rewrite str_lower_ascii by (by apply is_ascii_Forall).
Qed.

(** C7. When the chests of the world decode, [aggregate_chests] returns
    the totals of the items of the objects whose lowercased prefab name
    contains [piece_chest]: a name has an entry when one of these items
    bears it, and the entry is the sum of their stack counts. For an
    ASCII prefab name the match is that of the substring [piece_chest]
    in the name with its letters lowercased. An object whose prefab name
    does not match changes nothing. Two chests (one of them named in
    mixed case) and a player that each hold 10 ["Wood"] give the totals
    [{"Wood": 20}]. *)
Theorem aggregate_chests_sums zdos :
  ((∀ z, z ∈ zdos → is_chest str_lower z = true →
         ∃ l, decode_chest_items z = Ok l) →
   ∃ t,
     (aggregate_chests str_lower {| zdoList := Some zdos |}).2 = Ok t
     ∧ ∀ n, t !! n
            = if decide (n ∈ name <$> chest_items str_lower zdos)
              then Some (stack_sum n (chest_items str_lower zdos))
              else None)
  ∧ (∀ z,
       Forall (λ c, (0 ≤ c < 128)%Z) (default [] (prefabName z)) →
       is_chest str_lower z = true
       ↔ ∃ l r, map ascii_lower (default [] (prefabName z))
                = l ++ pystr "piece_chest" ++ r)
  ∧ (∀ pre z post,
       zdos = pre ++ z :: post →
       is_chest str_lower z = false →
       aggregate_chests str_lower {| zdoList := Some zdos |}
       = aggregate_chests str_lower {| zdoList := Some (pre ++ post) |})
  ∧ (aggregate_chests str_lower wood_world).2
    = Ok {[ pystr "Wood" := 20%Z ]}.
Proof.
  split; [|split; [|split]].
  - intros Hok. unfold aggregate_chests.
    cbn [zdoList default from_option id].
    destruct (aggregate_loop_ok zdos
                {| totals := ∅; all_items := []; stdout := [] |} Hok)
      as (st' & -> & Ht).
    exists (totals st'). split; [done|]. intros n.
    rewrite Ht, fold_add_total_lookup. cbn [totals].
    rewrite lookup_empty. case_decide; [|done]. by f_equal.
  - intros z Hascii. unfold is_chest.
    rewrite str_lower_ascii by done. apply str_in_spec.
  - intros pre z post -> Hother. by apply aggregate_chests_skips.
  - unfold aggregate_chests, wood_world.
    cbn [zdoList default from_option id].
    rewrite (aggregate_loop_ext str_lower (map ascii_lower)).
    + vm_compute. reflexivity.
    + intros z Hz. apply is_chest_ascii.
      repeat (apply elem_of_cons in Hz as [->|Hz]; [vm_compute; reflexivity|]).
      by apply elem_of_nil in Hz.
Qed.
End Aggregate.

(** * The properties on the sample inputs *)

(** ** Skills *)

Lemma single_record_isolated : isolated_run single_record 0 1.
Proof.
  split; [vm_compute; lia|]. intros pos. split.
  - intros Hv. exists 0. split; [lia|].
    apply valid_at_bound in Hv. unfold entry in Hv.
    change (length single_record) with 12 in Hv. lia.
  - intros (k & Hk & ->). replace k with 0 by lia. vm_compute. reflexivity.
Qed.

(** The file made of one valid record: no block is found. *)
Lemma find_skills_block_single_record :
  isolated_run single_record 0 1
  ∧ find_skills_block single_record = Ok (None, 0).
Proof.
  split; [exact single_record_isolated|].
  rewrite (find_skills_block_isolated_run single_record 0 1
             single_record_isolated ltac:(lia)).
  reflexivity.
Defined.

Lemma tie_buffer_runs o c : skills_run 64 tie_buffer o 0 = Ok c → c ≤ 1.
Proof.
  rewrite skills_run_64. intros [= <-].
  destruct (decide (o < 38)) as [Hlt|Hge].
  - do 38 (destruct o as [|o]; [vm_compute; lia|]). lia.
  - rewrite run_length_zero; [lia|].
    destruct (valid_at tie_buffer o) eqn:Hv; [|done].
    apply valid_at_bound in Hv. unfold entry in Hv.
    change (length tie_buffer) with 38 in Hv. lia.
Qed.

(** Two runs of one record, at 0 and at 25: the one at 0 is returned. *)
Lemma find_skills_block_tie_buffer :
  ∃ s,
    find_skills_block tie_buffer = Ok (Some s, 1)
    ∧ s ≤ 0
    ∧ skills_run 64 tie_buffer s 0 = Ok 1
    ∧ ∀ o, o < s → ∃ c, skills_run 64 tie_buffer o 0 = Ok c ∧ c < 1.
Proof.
  apply (find_skills_block_first_maximum tie_buffer 0 25 1).
  - lia.
  - lia.
  - vm_compute. reflexivity.
  - vm_compute. reflexivity.
  - exact tie_buffer_runs.
Defined.

(** The 12 bytes of one valid record: the offset 0 is not tried. *)
Lemma find_skills_block_twelve_bytes :
  valid_at single_record 0 = true
  ∧ find_skills_block single_record = Ok (None, 0).
Proof.
  split; [vm_compute; reflexivity|].
  apply (proj1 (find_skills_block_skips_last_offset single_record)).
  reflexivity.
Defined.

Lemma duplicate_block_records :
  records_from duplicate_block 0
    [(7%Z, F32Fin false 13107200 (-17)); (7%Z, F32Fin false 8388608 (-24))].
Proof.
  split; [|vm_compute; reflexivity].
  intros [|[|k]] r [= <-]; eexists; split; vm_compute; reflexivity.
Qed.

(** Two records of the skill 7: one entry, with the second level. *)
Lemma decode_skills_duplicate_block :
  ∃ skills,
    decode_skills axes_map duplicate_block = Ok skills
    ∧ skills !! skill_name axes_map 7 = Some (LevelDec false 50)
    ∧ size skills < 2.
Proof.
  apply (decode_skills_duplicate_id axes_map duplicate_block 0 2
           [(7%Z, F32Fin false 13107200 (-17));
            (7%Z, F32Fin false 8388608 (-24))]
           0 1 7%Z (F32Fin false 13107200 (-17))
           (F32Fin false 8388608 (-24))).
  - vm_compute. reflexivity.
  - exact duplicate_block_records.
  - lia.
  - reflexivity.
  - reflexivity.
  - intros [|[|k]] r Hk; [lia | lia | discriminate].
  - intros r Hr _.
    apply elem_of_cons in Hr as [->|Hr]; [reflexivity|].
    apply elem_of_cons in Hr as [->|Hr]; [reflexivity|].
    by apply elem_of_nil in Hr.
Defined.

(** ** Inventories *)

(** C1 as stated does not hold: a crafter name of 17 letters makes
    [remaining] equal to -1, and the payload decodes to its item without
    any exception. *)
Lemma long_crafter_name_not_rejected :
  (∃ buf1,
     decode_item_fields {| bio_data := long_crafter_payload; bio_pos := 8 |}
     = Ok ((wood_item (Some (replicate 17 65%Z)), (-1)%Z), buf1))
  ∧ decode_items long_crafter_payload
    = Ok [wood_item (Some (replicate 17 65%Z))]
  ∧ decode_chest_items (object_with_items "piece_chest_wood" long_crafter_b64)
    = Ok [wood_item (Some (replicate 17 65%Z))].
Proof.
  split; [eexists; vm_compute; reflexivity|].
  split; vm_compute; reflexivity.
Qed.

(** The record with the long crafter name: it is kept, the loop ends
    normally for a count of 1 and raises for a count of 2. *)
Lemma long_crafter_name_reads_to_end :
  decode_item_fields {| bio_data := long_crafter_payload; bio_pos := 8 |}
  = Ok ((wood_item (Some (replicate 17 65%Z)), (-1)%Z),
        {| bio_data := long_crafter_payload; bio_pos := 57 |})
  ∧ decode_items_loop 1 []
      {| bio_data := long_crafter_payload; bio_pos := 8 |}
    = Ok ([wood_item (Some (replicate 17 65%Z))],
          {| bio_data := long_crafter_payload; bio_pos := 57 |})
  ∧ decode_items_loop 2 []
      {| bio_data := long_crafter_payload; bio_pos := 8 |}
    = Raise StructError.
Proof.
  assert (decode_item_fields
            {| bio_data := long_crafter_payload; bio_pos := 8 |}
          = Ok ((wood_item (Some (replicate 17 65%Z)), (-1)%Z),
                {| bio_data := long_crafter_payload; bio_pos := 57 |}))
    as Hfields by (vm_compute; reflexivity).
  destruct (decode_negative_remaining_reads_to_end _ _ _ _ Hfields
              ltac:(lia)) as (_ & _ & Hlast & Hnext).
  split; [exact Hfields|]. split; [exact (Hlast [])|exact (Hnext 0 [])].
Defined.

(** C2 as stated does not hold: with the flag set and an empty crafter
    name the specification skips 16 bytes, and the code 17, from the
    offset 40 to the offset 57. *)
Lemma empty_crafter_name_skips_17 :
  spec_remaining 1 [] = 16%Z
  ∧ decode_item_fields {| bio_data := empty_crafter_payload; bio_pos := 8 |}
    = Ok ((wood_item (Some []), 17%Z),
          {| bio_data := empty_crafter_payload; bio_pos := 40 |})
  ∧ decode_item {| bio_data := empty_crafter_payload; bio_pos := 8 |}
    = Ok (wood_item (Some []),
          {| bio_data := empty_crafter_payload; bio_pos := 57 |}).
Proof. repeat split; vm_compute; reflexivity. Qed.

(** The record crafted by ["Bob"]: 17 - (1 + 3) bytes are skipped, from
    the offset 43 to the offset 56. *)
Lemma decode_item_crafted_payload :
  ∃ it,
    decode_item_fields {| bio_data := crafted_payload; bio_pos := 8 |}
    = Ok ((it, 13%Z), {| bio_data := crafted_payload; bio_pos := 43 |})
    ∧ decode_item {| bio_data := crafted_payload; bio_pos := 8 |}
      = Ok (it, {| bio_data := crafted_payload; bio_pos := 56 |}).
Proof.
  apply (decode_item_skips_remaining crafted_payload 8
           (byte_of_Z 4) (bytes_of [87; 111; 111; 100]%Z)
           (bytes_of ([10; 0; 0; 0] ++ [0; 0; 200; 66] ++ [0] ++ [1; 0; 0; 0]
                      ++ [0; 0; 0; 0] ++ [0; 0; 0; 0; 0; 0; 0; 0])%Z)
           (byte_of_Z 1) (byte_of_Z 3) (bytes_of [66; 111; 98]%Z)
           (bytes_of (replicate 13 0%Z))).
  - vm_compute. reflexivity.
  - reflexivity.
  - reflexivity.
  - reflexivity.
  - repeat (constructor; [vm_compute; reflexivity|]). constructor.
  - vm_compute. split; discriminate.
Defined.

(** C3 as stated does not hold for the string read: the length byte
    announces 3 bytes, 1 is left, and the read returns the string of that
    one byte with the cursor moved by 2. *)
Lemma short_string_read_returns :
  bio_data short_string_buffer !! 0 = Some (byte_of_Z 3)
  ∧ avail short_string_buffer < 1 + 3
  ∧ read_lp_string short_string_buffer
    = Ok ([97%Z], advance short_string_buffer 2).
Proof. repeat split; vm_compute; (reflexivity || lia). Qed.

(** The reads on the sample buffers. *)
Lemma typed_reads_wood_payload :
  read_u32 {| bio_data := wood_payload; bio_pos := 0 |}
  = Ok (1%Z, {| bio_data := wood_payload; bio_pos := 4 |})
  ∧ read_u32 {| bio_data := wood_payload; bio_pos := 54 |}
    = Raise StructError
  ∧ read_lp_string short_string_buffer
    = Ok ([97%Z], advance short_string_buffer 2).
Proof.
  split; [|split].
  - apply (proj1 (proj1 (typed_reads_bounds
                           {| bio_data := wood_payload; bio_pos := 0 |}))).
    vm_compute. lia.
  - apply (proj2 (proj1 (typed_reads_bounds
                           {| bio_data := wood_payload; bio_pos := 54 |}))).
    vm_compute. lia.
  - apply (proj2 (proj2 (proj2 (proj2 (proj2 (proj2
             (typed_reads_bounds short_string_buffer))))))
             (byte_of_Z 3)).
    reflexivity.
Defined.

(** No payload, and a payload of no items. *)
Lemma decode_chest_items_no_items :
  decode_chest_items
    {| prefabName := Some (pystr "piece_chest_wood"); stringsByName := None |}
  = Ok []
  ∧ decode_chest_items (object_with_items "piece_chest_wood" no_items_b64)
    = Ok [].
Proof.
  split.
  - apply (proj1 (decode_chest_items_empty _)). left. reflexivity.
  - apply (proj1 (proj2 (decode_chest_items_empty _))
             no_items_b64 (bytes_of [1; 0; 0; 0]%Z) []).
    + vm_compute. reflexivity.
    + vm_compute. reflexivity.
    + reflexivity.
Defined.

(** ** Aggregation *)

(** The second chest is truncated: the call raises [struct.error]. *)
Lemma aggregate_chests_truncated_world :
  (aggregate_chests (map ascii_lower) {| zdoList := Some truncated_world |}).2
  = Raise StructError.
Proof.
  apply (proj1 (aggregate_chests_aborts (map ascii_lower) truncated_world)
           [object_with_items "piece_chest_wood" wood_b64]
           (object_with_items "piece_chest_wood" truncated_b64)
           [object_with_items "piece_chest_wood" wood_b64]
           StructError).
  - reflexivity.
  - vm_compute. reflexivity.
  - vm_compute. reflexivity.
  - intros z Hz _. apply list_elem_of_singleton in Hz as ->.
    eexists. vm_compute. reflexivity.
Defined.

(** Two chests and a player with 10 ["Wood"] each. *)
Lemma aggregate_chests_wood_world :
  (aggregate_chests (map ascii_lower) wood_world).2
  = Ok {[ pystr "Wood" := 20%Z ]}.
Proof.
  apply (proj2 (proj2 (proj2 (aggregate_chests_sums (map ascii_lower)
                                (λ s _, eq_refl) [])))).
Defined.


(** * Further properties of the skill decoders *)

Lemma run_length_valid n data start k :
  k < run_length n data start → valid_at data (start + entry * k) = true.
Proof.
  revert start k. induction n as [|n IH]; intros start k Hk.
  { change (run_length 0 data start) with 0 in Hk. lia. }
  rewrite run_length_S in Hk. destruct (valid_at data start) eqn:Hv; [|lia].
  destruct k as [|k]; [by rewrite Nat.mul_0_r, Nat.add_0_r|].
  replace (start + entry * S k) with (start + entry + entry * k) by lia.
  apply IH. lia.
Qed.

Lemma run_length_records n data start recs :
  records_from data start recs →
  run_length n data start = n `min` length recs.
Proof.
  revert start recs.
  induction n as [|n IH]; intros start recs Hrecs; [reflexivity|].
  rewrite run_length_S. destruct recs as [|r recs].
  - destruct Hrecs as [_ Hend]. cbn [length] in Hend.
    rewrite Nat.mul_0_r, Nat.add_0_r in Hend. by rewrite Hend.
  - pose proof Hrecs as [Hrec _]. specialize (Hrec 0 r eq_refl).
    rewrite Nat.mul_0_r, Nat.add_0_r in Hrec.
    destruct Hrec as (acc & Hu & Hvalid). unfold valid_at. rewrite Hu, Hvalid.
    assert (records_from data (start + entry) recs) as Hrecs'.
    { destruct Hrecs as [Hrec Hend]. split.
      - intros k r' Hk. specialize (Hrec (S k) r' Hk).
        by replace (start + entry + entry * k) with (start + entry * S k)
          by lia.
      - cbn [length] in Hend.
        by replace (start + entry + entry * length recs)
          with (start + entry * S (length recs)) by lia. }
    rewrite (IH _ _ Hrecs'). cbn [length]. lia.
Qed.

(** With no start, no offset of the scan holds a valid record. *)
Lemma find_skills_block_none data count :
  find_skills_block data = Ok (None, count) →
  count = 0 ∧ ∀ o, o + entry < length data → valid_at data o = false.
Proof.
  intros Hfind.
  destruct (find_skills_block_spec data) as (best & Hb & Hall & Hbest).
  rewrite Hfind in Hb. injection Hb as <-. cbn [fst snd] in *.
  split; [done|]. intros o Ho.
  destruct (valid_at data o) eqn:Hv; [|done].
  assert (run_length 64 data o ≤ count) as Hle by (apply Hall; lia).
  pose proof (run_length_S 63 data o) as Hstep. rewrite Hv in Hstep. lia.
Qed.

(** A start is an offset of the scan that holds a valid record. *)
Lemma find_skills_block_some data start count :
  find_skills_block data = Ok (Some start, count) →
  1 ≤ count ≤ 64 ∧ start + entry < length data ∧ valid_at data start = true.
Proof.
  intros Hfind.
  destruct (find_skills_block_spec data) as (best & Hb & Hall & Hbest).
  rewrite Hfind in Hb. injection Hb as <-. cbn [fst snd] in *.
  destruct Hbest as (Hs & Hrun & Hpos & Hlow).
  pose proof (run_length_le 64 data start).
  split; [lia|]. split; [lia|]. apply (run_length_pos 64). lia.
Qed.

(** X1. What [find_skills_block] returns. With no start it returns the
    count 0, and then no offset below [len(data) - 12] holds a valid
    record. With a start [s] and a count [c]: [c] is between 1 and 64,
    the [c] records at [s], [s + 12], ... are valid and lie within the
    buffer, no offset below [len(data) - 12] starts a longer run (runs
    being counted up to 64), and every lower offset starts a strictly
    shorter one. *)
Theorem find_skills_block_result data best_start best_count :
  find_skills_block data = Ok (best_start, best_count) →
  match best_start with
  | None =>
      best_count = 0
      ∧ ∀ o, o + entry < length data → valid_at data o = false
  | Some s =>
      1 ≤ best_count ≤ 64
      ∧ s + entry < length data
      ∧ s + entry * best_count ≤ length data
      ∧ (∀ k, k < best_count → valid_at data (s + entry * k) = true)
      ∧ (∀ o, o + entry < length data → run_length 64 data o ≤ best_count)
      ∧ (∀ o, o < s → run_length 64 data o < best_count)
  end.
Proof.
  intros Hfind.
  destruct (find_skills_block_spec data) as (best & Hb & Hall & Hbest).
  rewrite Hfind in Hb. injection Hb as <-. cbn [fst snd] in *.
  destruct best_start as [s|].
  - destruct Hbest as (Hs & Hrun & Hpos & Hlow).
    pose proof (run_length_le 64 data s).
    pose proof (run_length_bound 64 data s) as Hbound.
    assert (valid_at data s = true) as Hv
      by (apply (run_length_pos 64); lia).
    apply valid_at_bound in Hv.
    split; [lia|]. split; [lia|]. split; [rewrite <- Hrun; lia|].
    split; [intros k Hk; apply (run_length_valid 64); lia|].
    split; [intros o Ho; apply Hall; lia | done].
  - by apply find_skills_block_none.
Qed.

Lemma find_skills_block_result_tie_buffer :
  1 ≤ 1 ≤ 64
  ∧ 0 + entry < length tie_buffer
  ∧ 0 + entry * 1 ≤ length tie_buffer
  ∧ (∀ k, k < 1 → valid_at tie_buffer (0 + entry * k) = true)
  ∧ (∀ o, o + entry < length tie_buffer → run_length 64 tie_buffer o ≤ 1)
  ∧ (∀ o, o < 0 → run_length 64 tie_buffer o < 1).
Proof.
  apply (find_skills_block_result tie_buffer (Some 0) 1).
  vm_compute. reflexivity.
Defined.

Section SkillTableMore.
Variable SKILL_MAP : gmap Z str.

(** X2. [decode_skills] raises [RuntimeError] exactly when no offset
    below [len(data) - 12] holds a valid record, which is the case of
    every file of at most 12 bytes; it raises nothing else. *)
Theorem decode_skills_raises data :
  (decode_skills SKILL_MAP data = Raise RuntimeError
   ↔ ∀ o, o + entry < length data → valid_at data o = false)
  ∧ (∀ e, decode_skills SKILL_MAP data = Raise e → e = RuntimeError)
  ∧ (length data ≤ entry → decode_skills SKILL_MAP data = Raise RuntimeError).
Proof.
  assert (decode_skills SKILL_MAP data = Raise RuntimeError
          ↔ ∀ o, o + entry < length data → valid_at data o = false) as Hiff.
  { destruct (decode_skills_returns SKILL_MAP data)
      as [(count & Hfind & Hraise)|(start & count & recs & Hfind & _ & Hok)].
    - split; [|done]. intros _.
      by apply (find_skills_block_none data count).
    - rewrite Hok. split; [done|]. intros Hnone.
      destruct (find_skills_block_some data start count Hfind)
        as (Hcount & Hs & Hvalid).
      rewrite Hnone in Hvalid by done.
      discriminate Hvalid. }
  split; [done|]. split.
  - intros e He.
    destruct (decode_skills_returns SKILL_MAP data)
      as [(count & _ & Hraise)|(start & count & recs & _ & _ & Hok)];
      congruence.
  - intros Hlen. apply Hiff. intros o Ho. lia.
Qed.

Lemma fold_store_lookup_inv recs skills n l :
  fold_left (store_skill SKILL_MAP) recs skills !! n = Some l →
  skills !! n = Some l
  ∨ ∃ r, r ∈ recs ∧ skill_name SKILL_MAP r.1 = n ∧ l = round2 r.2.
Proof.
  revert skills. induction recs as [|r recs IH]; intros skills Hl; [by left|].
  cbn [fold_left] in Hl. apply IH in Hl as [Hl|(r' & Hr' & Hn & Hl)].
  - unfold store_skill in Hl. rewrite lookup_insert in Hl.
    case_decide as Heq; [|by left].
    right. exists r. injection Hl as <-. split; [by left | done].
  - right. exists r'. split; [by right | done].
Qed.

Lemma fold_store_lookup_elem recs skills r :
  r ∈ recs →
  is_Some (fold_left (store_skill SKILL_MAP) recs skills
             !! skill_name SKILL_MAP r.1).
Proof.
  revert skills. induction recs as [|r0 recs IH]; intros skills Hr.
  { by apply elem_of_nil in Hr. }
  cbn [fold_left]. apply elem_of_cons in Hr as [->|Hr]; [|by apply IH].
  apply fold_store_is_Some. unfold store_skill.
  rewrite lookup_insert_eq. by eexists.
Qed.

(** X3. The table [decode_skills] returns holds the records that follow
    the start of the block, up to the first offset without a valid
    record: every record has an entry under the name of its id (known or
    not, none is dropped), every entry is the rounded level of one of
    the records with that name, and the table is not empty and has at
    most one entry per record. *)
Theorem decode_skills_table data skills :
  decode_skills SKILL_MAP data = Ok skills →
  ∃ start count recs,
    find_skills_block data = Ok (Some start, count)
    ∧ records_from data start recs
    ∧ (∀ r, r ∈ recs → is_Some (skills !! skill_name SKILL_MAP r.1))
    ∧ (∀ n l, skills !! n = Some l →
              ∃ r, r ∈ recs ∧ skill_name SKILL_MAP r.1 = n ∧ l = round2 r.2)
    ∧ 1 ≤ size skills ≤ length recs.
Proof.
  intros Hdec.
  destruct (decode_skills_returns SKILL_MAP data)
    as [(count & _ & Hraise)|(start & count & recs & Hfind & Hrecs & Hok)];
    [congruence|].
  rewrite Hok in Hdec. injection Hdec as <-.
  exists start, count, recs. split; [done|]. split; [done|].
  split; [intros r Hr; by apply fold_store_lookup_elem|]. split.
  { intros n l Hl. apply fold_store_lookup_inv in Hl as [Hl|Hl]; [|done].
    by rewrite lookup_empty in Hl. }
  pose proof (fold_store_size SKILL_MAP recs ∅) as Hsize.
  rewrite map_size_empty in Hsize. split; [|lia].
  destruct (find_skills_block_some data start count Hfind)
    as (Hcount & _).
  pose proof (run_length_records 64 data start recs Hrecs) as Hrun.
  destruct (find_skills_block_spec data) as (best & Hb & _ & Hbest).
  rewrite Hfind in Hb. injection Hb as <-. cbn [fst snd] in Hbest.
  destruct recs as [|r recs]; [cbn [length] in Hrun; lia|].
  destruct (fold_store_lookup_elem (r :: recs) ∅ r ltac:(by left)) as [l Hl].
  destruct (decide (size (fold_left (store_skill SKILL_MAP) (r :: recs) ∅)
                    = 0)) as [Hz|]; [|lia].
  apply map_size_empty_inv in Hz. rewrite Hz, lookup_empty in Hl. done.
Qed.

(** X4. [find_skills_block] counts at most 64 records but [decode_skills]
    reads on: it reads at least as many records as the block counts, and
    exactly as many when the count is below 64. *)
Theorem decode_skills_reads_past_cap data start count recs :
  find_skills_block data = Ok (Some start, count) →
  records_from data start recs →
  count = 64 `min` length recs
  ∧ decode_skills SKILL_MAP data
    = Ok (fold_left (store_skill SKILL_MAP) recs ∅).
Proof.
  intros Hfind Hrecs.
  destruct (find_skills_block_spec data) as (best & Hb & _ & Hbest).
  rewrite Hfind in Hb. injection Hb as <-. cbn [fst snd] in Hbest.
  destruct Hbest as (_ & Hrun & Hpos & _).
  rewrite (run_length_records 64 data start recs Hrecs) in Hrun.
  split; [done|].
  unfold decode_skills. rewrite Hfind. cbn [mbind result_bind].
  case_decide; [lia|].
  apply skills_walk_spec; [done|]. by eapply records_from_length.
Qed.
End SkillTableMore.

(** ** Levels *)







(** * Further properties of the inventory decoder *)

(** ** Cursor and exceptions *)

Lemma rbind_inv {A B} (m : reader A) (k : A → reader B) buf b buf'' :
  rbind m k buf = Ok (b, buf'') →
  ∃ a buf', m buf = Ok (a, buf') ∧ k a buf' = Ok (b, buf'').
Proof.
  unfold rbind. destruct (m buf) as [[a buf']|e]; [|done]. by eauto.
Qed.

Lemma advances_weaken {A} lo lo' (m : reader A) :
  lo' ≤ lo → advances lo m → advances lo' m.
Proof.
  intros Hle Hm buf a buf' Hok.
  destruct (Hm _ _ _ Hok) as (k & -> & Hk). exists k. split; [done | lia].
Qed.

Lemma advances_ret {A} (a : A) : advances 0 (rret a).
Proof.
  intros buf a' buf' [= <- <-]. exists 0. split; [|lia].
  unfold advance. destruct buf. cbn. by rewrite Nat.add_0_r.
Qed.

Lemma advances_bind {A B} l1 l2 (m : reader A) (k : A → reader B) :
  advances l1 m → (∀ a, advances l2 (k a)) → advances (l1 + l2) (rbind m k).
Proof.
  intros Hm Hk buf b buf'' Hok.
  apply rbind_inv in Hok as (a & buf' & Hm' & Hk').
  destruct (Hm _ _ _ Hm') as (k1 & -> & Hk1).
  destruct (Hk _ _ _ _ Hk') as (k2 & -> & Hk2).
  rewrite avail_advance in Hk2.
  exists (k1 + k2). split; [apply advance_advance | lia].
Qed.

Lemma advances_bio_read size : advances 0 (bio_read size).
Proof.
  intros buf bs buf' Hok. unfold bio_read in Hok. injection Hok as <- <-.
  eexists. split; [reflexivity|]. split; [lia|].
  rewrite <- avail_length.
  destruct (size <? 0)%Z; [done|]. rewrite length_take. lia.
Qed.

Lemma advances_read_fixed {A} w (conv : list byte → A) :
  advances w (read_fixed w conv).
Proof.
  intros buf a buf' Hok.
  destruct (read_fixed_exact w conv buf) as [Hin Hout].
  destruct (decide (w ≤ avail buf)) as [Hw|Hw].
  - rewrite Hin in Hok by done. injection Hok as <- <-. by exists w.
  - rewrite Hout in Hok by lia. discriminate Hok.
Qed.

Lemma advances_read_lp_string : advances 1 read_lp_string.
Proof.
  unfold read_lp_string.
  apply (advances_bind 1 0); [apply (advances_read_fixed 1 le_uint)|].
  intros n. apply (advances_bind 0 0); [apply advances_bio_read|].
  intros bs. apply advances_ret.
Qed.

(** The fields of a record take at least 27 bytes. *)
Lemma advances_decode_item_fields : advances 27 decode_item_fields.
Proof.
  unfold decode_item_fields.
  apply (advances_bind 1 26); [apply advances_read_lp_string|]. intros ?.
  apply (advances_bind 4 22); [apply advances_read_fixed|]. intros ?.
  apply (advances_bind 4 18); [apply advances_read_fixed|]. intros ?.
  apply (advances_bind 1 17); [apply advances_read_fixed|]. intros ?.
  apply (advances_bind 4 13); [apply advances_read_fixed|]. intros ?.
  apply (advances_bind 4 9); [apply advances_read_fixed|]. intros ?.
  apply (advances_bind 8 1); [apply advances_read_fixed|]. intros ?.
  apply (advances_bind 1 0); [apply advances_read_fixed|]. intros flag.
  apply (advances_bind 0 0); [|intros ?; apply advances_ret].
  destruct (truthy_int flag); [|apply advances_ret].
  apply (advances_weaken 1); [lia|].
  apply (advances_bind 1 0); [apply advances_read_lp_string|].
  intros ?. apply advances_ret.
Qed.

Lemma advances_decode_item : advances 27 decode_item.
Proof.
  unfold decode_item.
  apply (advances_bind 27 0); [apply advances_decode_item_fields|]. intros ?.
  apply (advances_bind 0 0); [apply advances_bio_read|]. intros ?.
  apply advances_ret.
Qed.

Lemma decode_items_loop_length count results buf items buf' :
  decode_items_loop count results buf = Ok (items, buf') →
  length items = length results + count
  ∧ ∃ k, buf' = advance buf k ∧ 27 * count ≤ k ≤ avail buf.
Proof.
  revert results buf. induction count as [|count IH]; intros results buf Hok.
  - cbn in Hok. injection Hok as <- <-. split; [lia|].
    exists 0. split; [|lia].
    unfold advance. destruct buf. cbn. by rewrite Nat.add_0_r.
  - cbn [decode_items_loop] in Hok.
    apply rbind_inv in Hok as (it & buf1 & Hitem & Hloop).
    destruct (advances_decode_item _ _ _ Hitem) as (k1 & -> & Hk1).
    apply IH in Hloop as (Hlen & k2 & -> & Hk2).
    rewrite length_app in Hlen. cbn [length] in Hlen.
    rewrite avail_advance in Hk2. split; [lia|].
    exists (k1 + k2). split; [apply advance_advance | lia].
Qed.

Lemma raises_struct_only_bind {A B} (m : reader A) (k : A → reader B) :
  raises_struct_only m → (∀ a, raises_struct_only (k a)) →
  raises_struct_only (rbind m k).
Proof.
  intros Hm Hk buf e. unfold rbind.
  destruct (m buf) as [[a buf']|e'] eqn:Hmb.
  - apply Hk.
  - intros [= <-]. by eapply Hm.
Qed.

Lemma raises_struct_only_ret {A} (a : A) : raises_struct_only (rret a).
Proof. by intros buf e. Qed.

Lemma raises_struct_only_bio_read size : raises_struct_only (bio_read size).
Proof. by intros buf e. Qed.

Lemma raises_struct_only_fixed {A} w (conv : list byte → A) :
  raises_struct_only (read_fixed w conv).
Proof.
  unfold read_fixed.
  apply raises_struct_only_bind; [apply raises_struct_only_bio_read|].
  intros bs buf e. unfold rlift, unpack_sized.
  case_decide; [done | by intros [= <-]].
Qed.

Lemma raises_struct_only_lp_string : raises_struct_only read_lp_string.
Proof.
  unfold read_lp_string.
  apply raises_struct_only_bind; [apply (raises_struct_only_fixed 1 le_uint)|].
  intros ?. apply raises_struct_only_bind; [apply raises_struct_only_bio_read|].
  intros ?. apply raises_struct_only_ret.
Qed.

Lemma raises_struct_only_decode_item : raises_struct_only decode_item.
Proof.
  unfold decode_item, decode_item_fields.
  repeat first
    [ apply raises_struct_only_ret
    | apply raises_struct_only_bio_read
    | apply raises_struct_only_lp_string
    | apply (raises_struct_only_fixed 4 (λ bs, to_signed 32 (le_uint bs)))
    | apply (raises_struct_only_fixed 4 (λ bs, f32_of_bits (le_uint bs)))
    | apply (raises_struct_only_fixed 1 le_uint)
    | apply (raises_struct_only_fixed 8 le_uint)
    | apply raises_struct_only_bind; [|intros ?]
    | match goal with |- context [truthy_int ?f] => destruct (truthy_int f) end ].
Qed.

Lemma raises_struct_only_loop count results :
  raises_struct_only (decode_items_loop count results).
Proof.
  revert results. induction count as [|count IH]; intros results.
  - apply raises_struct_only_ret.
  - cbn [decode_items_loop].
    apply raises_struct_only_bind; [apply raises_struct_only_decode_item|].
    intros it. apply IH.
Qed.

(** The inventory decoder raises nothing but [struct.error]. *)
Lemma decode_items_raises raw e : decode_items raw = Raise e → e = StructError.
Proof.
  intros Hraise. unfold decode_items in Hraise.
  destruct (rbind _ _ _) as [[results buf']|e'] eqn:Hrun; [done|].
  injection Hraise as ->. revert Hrun.
  apply raises_struct_only_bind; [apply (raises_struct_only_fixed 4 le_uint)|].
  intros ?.
  apply raises_struct_only_bind; [apply (raises_struct_only_fixed 4 le_uint)|].
  intros ?. apply raises_struct_only_loop.
Qed.

(** X6. When [decode_items] returns, it returns exactly as many items as
    the count word announces, and the payload holds the two header words
    and at least 27 bytes for each of them; so a count that the payload
    cannot hold always ends in an exception, never in a shorter list.
    The only exception it raises is [struct.error]. *)
Theorem decode_items_count raw :
  (∀ items,
     decode_items raw = Ok items →
     Z.of_nat (length items) = le_uint (take 4 (drop 4 raw))
     ∧ 8 + 27 * length items ≤ length raw)
  ∧ (∀ e, decode_items raw = Raise e → e = StructError).
Proof.
  split.
  - intros items Hok. unfold decode_items in Hok.
    destruct (rbind _ _ _) as [[results buf']|e] eqn:Hrun; [|done].
    injection Hok as ->.
    apply rbind_inv in Hrun as (header & buf1 & Hheader & Hrun).
    apply rbind_inv in Hrun as (count & buf2 & Hcount & Hloop).
    set (buf := {| bio_data := raw; bio_pos := 0 |}) in *.
    change read_u32 with (read_fixed 4 le_uint) in Hheader, Hcount.
    destruct (read_fixed_exact 4 le_uint buf) as [Hin Hout].
    destruct (decide (4 ≤ avail buf)) as [Hw|Hw];
      [|rewrite Hout in Hheader by lia; discriminate Hheader].
    rewrite Hin in Hheader by done. injection Hheader as _ <-.
    destruct (read_fixed_exact 4 le_uint (advance buf 4)) as [Hin' Hout'].
    destruct (decide (4 ≤ avail (advance buf 4))) as [Hw'|Hw'];
      [|rewrite Hout' in Hcount by lia; discriminate Hcount].
    rewrite Hin' in Hcount by done. injection Hcount as <- <-.
    apply decode_items_loop_length in Hloop as (Hlen & k & _ & Hk).
    cbn [length] in Hlen. rewrite !avail_advance in *.
    unfold avail, buf in *. cbn [bio_data bio_pos advance] in *.
    assert (0 ≤ le_uint (take 4 (drop 4 raw)))%Z as Hnonneg.
    { clear. generalize (take 4 (drop 4 raw)).
      induction l as [|b l IH]; cbn [le_uint]; [done|].
      unfold byte_val. lia. }
    split; [rewrite Hlen; cbn; lia | lia].
  - apply decode_items_raises.
Qed.

(** ** The ranges of the fields *)

Lemma byte_val_bound b : (0 ≤ byte_val b < 256)%Z.
Proof.
  unfold byte_val. pose proof (Byte.to_N_bounded b). lia.
Qed.

Lemma le_uint_bound bs : (0 ≤ le_uint bs < 256 ^ Z.of_nat (length bs))%Z.
Proof.
  induction bs as [|b bs IH]; cbn [le_uint length]; [done|].
  rewrite Nat2Z.inj_succ, Z.pow_succ_r by lia.
  pose proof (byte_val_bound b). lia.
Qed.

Lemma to_signed_32_range u :
  (0 ≤ u < 2 ^ 32)%Z → (- 2 ^ 31 ≤ to_signed 32 u < 2 ^ 31)%Z.
Proof.
  intros Hu. unfold to_signed.
  replace (32 - 1)%Z with 31%Z by lia.
  destruct (Z.ltb_spec u (2 ^ 31)); lia.
Qed.

(** A decoded string has at most one character for each byte. *)
Lemma utf8_decode_length bs :
  length (utf8_decode_replace bs) ≤ length bs.
Proof.
  remember (length bs) as n eqn:Hn.
  assert (length bs ≤ n) as Hle by lia. clear Hn. revert bs Hle.
  induction n as [|n IH]; intros bs Hle.
  { destruct bs; [cbn; lia | cbn in Hle; lia]. }
  destruct bs as [|b0 r0]; [cbn; lia|].
  cbn [utf8_decode_replace].
  repeat case_match; subst; cbn [length] in *;
    repeat match goal with
    | |- context [utf8_decode_replace ?r] =>
        let H := fresh in
        assert (length (utf8_decode_replace r) ≤ n) as H
          by (apply IH; cbn [length] in *; lia);
        revert H; generalize (utf8_decode_replace r); intros ? ?
    end;
    cbn [length] in *; lia.
Qed.

Lemma read_fixed_value {A} w (conv : list byte → A) buf v buf' :
  read_fixed w conv buf = Ok (v, buf') →
  ∃ bs, length bs = w ∧ v = conv bs.
Proof.
  intros Hok. destruct (read_fixed_exact w conv buf) as [Hin Hout].
  destruct (decide (w ≤ avail buf)) as [Hw|Hw].
  - rewrite Hin in Hok by done. injection Hok as <- _.
    eexists. split; [|done]. rewrite length_take, avail_length. lia.
  - rewrite Hout in Hok by lia. discriminate Hok.
Qed.

Lemma read_lp_string_length buf s buf' :
  read_lp_string buf = Ok (s, buf') → length s ≤ 255.
Proof.
  intros Hok.
  destruct (bio_data buf !! bio_pos buf) as [b|] eqn:Hb.
  - rewrite (read_lp_string_at _ _ Hb) in Hok. injection Hok as <- _.
    etrans; [apply utf8_decode_length|]. rewrite length_take.
    pose proof (byte_val_bound b). lia.
  - apply lookup_ge_None in Hb.
    rewrite read_lp_string_end in Hok by (unfold avail; lia). done.
Qed.

Lemma decode_item_in_range buf it buf' :
  decode_item buf = Ok (it, buf') → item_in_range it.
Proof.
  intros Hok. unfold decode_item in Hok.
  apply rbind_inv in Hok as ([it' rem] & buf1 & Hfields & Hok).
  apply rbind_inv in Hok as (? & ? & _ & [= <- _]). cbn [fst].
  unfold decode_item_fields in Hfields.
  apply rbind_inv in Hfields as (nm & ? & Hname & Hfields).
  apply rbind_inv in Hfields as (st & ? & Hstack & Hfields).
  apply rbind_inv in Hfields as (du & ? & Hdur & Hfields).
  apply rbind_inv in Hfields as (eq & ? & _ & Hfields).
  apply rbind_inv in Hfields as (qu & ? & Hquality & Hfields).
  apply rbind_inv in Hfields as (va & ? & Hvariant & Hfields).
  apply rbind_inv in Hfields as (ci & ? & Hcid & Hfields).
  apply rbind_inv in Hfields as (flag & ? & _ & Hfields).
  apply rbind_inv in Hfields as (cn & ? & Hcrafter & [= <- _ _]).
  apply read_lp_string_length in Hname.
  apply (read_fixed_value 4 (λ bs, to_signed 32 (le_uint bs))) in Hstack
    as (bs1 & Hl1 & ->).
  apply (read_fixed_value 4 (λ bs, f32_of_bits (le_uint bs))) in Hdur
    as (bs2 & Hl2 & ->).
  apply (read_fixed_value 4 (λ bs, to_signed 32 (le_uint bs))) in Hquality
    as (bs3 & Hl3 & ->).
  apply (read_fixed_value 4 (λ bs, to_signed 32 (le_uint bs))) in Hvariant
    as (bs4 & Hl4 & ->).
  apply (read_fixed_value 8 le_uint) in Hcid as (bs5 & Hl5 & ->).
  pose proof (le_uint_bound bs1) as Hb1. rewrite Hl1 in Hb1.
  pose proof (le_uint_bound bs3) as Hb3. rewrite Hl3 in Hb3.
  pose proof (le_uint_bound bs4) as Hb4. rewrite Hl4 in Hb4.
  pose proof (le_uint_bound bs5) as Hb5. rewrite Hl5 in Hb5.
  unfold item_in_range. cbn [name stack durability quality variant
                             crafter_id crafter_name].
  split; [done|]. split; [by apply to_signed_32_range|].
  split; [by eexists|]. split; [by apply to_signed_32_range|].
  split; [by apply to_signed_32_range|]. split; [done|].
  destruct (truthy_int flag).
  - apply rbind_inv in Hcrafter as (s & ? & Hs & [= <- _]).
    by apply read_lp_string_length in Hs.
  - by injection Hcrafter as <- _.
Qed.

Lemma decode_items_loop_in_range count results buf items buf' :
  decode_items_loop count results buf = Ok (items, buf') →
  Forall item_in_range results → Forall item_in_range items.
Proof.
  revert results buf. induction count as [|count IH]; intros results buf Hok Hres.
  - cbn in Hok. by injection Hok as <- _.
  - cbn [decode_items_loop] in Hok.
    apply rbind_inv in Hok as (it & buf1 & Hitem & Hloop).
    apply (IH _ _ Hloop). apply Forall_app. split; [done|].
    apply Forall_singleton. by eapply decode_item_in_range.
Qed.

(** X7. Every item [decode_items] returns has fields in the ranges of
    their types: names of at most 255 characters, a stack count, a
    quality and a variant that are signed 32-bit numbers, a crafter id
    that is an unsigned 64-bit number, and a binary32 durability. *)
Theorem decode_items_in_range raw items it :
  decode_items raw = Ok items → it ∈ items → item_in_range it.
Proof.
  intros Hok Hit. unfold decode_items in Hok.
  destruct (rbind _ _ _) as [[results buf']|e] eqn:Hrun; [|done].
  injection Hok as ->.
  apply rbind_inv in Hrun as (header & buf1 & _ & Hrun).
  apply rbind_inv in Hrun as (count & buf2 & _ & Hloop).
  apply decode_items_loop_in_range in Hloop; [|by constructor].
  rewrite Forall_forall in Hloop. by apply Hloop.
Qed.

(** ** Writing and reading back *)

Lemma byte_val_of_Z z : byte_val (byte_of_Z z) = (z mod 256)%Z.
Proof.
  unfold byte_val, byte_of_Z.
  pose proof (Z.mod_pos_bound z 256 ltac:(lia)) as Hmod.
  destruct (Byte.of_N (Z.to_N (z mod 256))) as [b|] eqn:Hb.
  - apply Byte.to_of_N in Hb. cbn [default from_option id]. rewrite Hb. lia.
  - apply Byte.of_N_None_iff in Hb. lia.
Qed.

Lemma length_le_bytes w n : length (le_bytes w n) = w.
Proof. revert n. induction w as [|w IH]; intros n; cbn; [done|]. by rewrite IH. Qed.

Lemma le_uint_le_bytes w n :
  le_uint (le_bytes w n) = (n mod 256 ^ Z.of_nat w)%Z.
Proof.
  revert n. induction w as [|w IH]; intros n.
  { cbn. by rewrite Z.mod_1_r. }
  cbn [le_bytes le_uint]. rewrite IH, byte_val_of_Z.
  rewrite Nat2Z.inj_succ, Z.pow_succ_r by lia.
  rewrite Z.rem_mul_r by lia. done.
Qed.

Lemma le_uint_unsigned w n :
  (0 ≤ n < 256 ^ Z.of_nat w)%Z → le_uint (le_bytes w n) = n.
Proof. intros Hn. rewrite le_uint_le_bytes. by apply Z.mod_small. Qed.

Lemma le_uint_signed n :
  (- 2 ^ 31 ≤ n < 2 ^ 31)%Z → to_signed 32 (le_uint (le_bytes 4 n)) = n.
Proof.
  intros Hn. rewrite le_uint_le_bytes. unfold to_signed.
  change (256 ^ Z.of_nat 4)%Z with (2 ^ 32)%Z.
  replace (32 - 1)%Z with 31%Z by lia.
  destruct (decide (0 ≤ n)%Z) as [Hpos|Hneg].
  - rewrite Z.mod_small by lia. destruct (Z.ltb_spec n (2 ^ 31)); lia.
  - replace (n mod 2 ^ 32)%Z with (n + 2 ^ 32)%Z.
    + destruct (Z.ltb_spec (n + 2 ^ 32) (2 ^ 31)); lia.
    + apply (Z.mod_unique _ _ (-1)); lia.
Qed.

(** The fields of the bits [f32_pack] writes. *)
Lemma f32_of_bits_pack neg ex fr :
  (0 ≤ ex < 256)%Z → (0 ≤ fr < 2 ^ 23)%Z →
  f32_of_bits (f32_pack neg ex fr)
  = if (ex =? 255)%Z then (if (fr =? 0)%Z then F32Inf neg else F32NaN)
    else if (ex =? 0)%Z then F32Fin neg fr (-149)
    else F32Fin neg (2 ^ 23 + fr) (ex - 150).
Proof.
  intros Hex Hfr. unfold f32_of_bits, f32_pack.
  set (u := ((if neg then 2 ^ 31 else 0) + ex * 2 ^ 23 + fr)%Z).
  assert (Z.testbit u 31 = neg) as ->.
  { rewrite Z.testbit_odd, Z.shiftr_div_pow2 by lia.
    replace (u / 2 ^ 31)%Z with (if neg then 1 else 0)%Z; [by destruct neg|].
    apply (Z.div_unique _ _ _ (ex * 2 ^ 23 + fr)); unfold u; destruct neg; lia. }
  assert (Z.land (Z.shiftr u 23) 255 = ex) as ->.
  { change 255%Z with (Z.ones 8). rewrite Z.land_ones, Z.shiftr_div_pow2 by lia.
    replace (u / 2 ^ 23)%Z with ((if neg then 256 else 0) + ex)%Z.
    - symmetry.
      apply (Z.mod_unique _ _ (if neg then 1 else 0)); destruct neg; lia.
    - apply (Z.div_unique _ _ _ fr); unfold u; destruct neg; lia. }
  assert (Z.land u (2 ^ 23 - 1) = fr) as ->.
  { change (2 ^ 23 - 1)%Z with (Z.ones 23). rewrite Z.land_ones by lia.
    symmetry. apply (Z.mod_unique _ _ ((if neg then 256 else 0) + ex));
      unfold u; destruct neg; lia. }
  done.
Qed.

Lemma f32_of_bits_bits x : f32_canonical x → f32_of_bits (f32_bits x) = x.
Proof.
  destruct x as [|neg|neg m e]; cbn [f32_bits f32_canonical].
  - intros _. by rewrite f32_of_bits_pack by lia.
  - intros _. by rewrite f32_of_bits_pack by lia.
  - intros Hm. destruct (Z.ltb_spec m (2 ^ 23)).
    + rewrite f32_of_bits_pack by lia. cbn. f_equal. lia.
    + rewrite f32_of_bits_pack by lia.
      destruct (Z.eqb_spec (e + 150) 255); [lia|].
      destruct (Z.eqb_spec (e + 150) 0); [lia|]. f_equal; lia.
Qed.

Lemma f32_bits_range x : f32_canonical x → (0 ≤ f32_bits x < 2 ^ 32)%Z.
Proof.
  destruct x as [|neg|neg m e]; cbn [f32_bits f32_canonical]; unfold f32_pack.
  - lia.
  - destruct neg; lia.
  - intros Hm. destruct (Z.ltb_spec m (2 ^ 23)); destruct neg; lia.
Qed.

Lemma utf8_decode_encode (s : str) :
  Forall (λ c, (0 ≤ c < 128)%Z) s →
  utf8_decode_replace (map byte_of_Z s) = s.
Proof.
  intros Hs. rewrite utf8_decode_ascii.
  - induction Hs as [|c s Hc _ IH]; [done|]. cbn [map].
    rewrite IH, byte_val_of_Z, Z.mod_small by lia. done.
  - induction Hs as [|c s Hc _ IH]; constructor; [|done].
    rewrite byte_val_of_Z, Z.mod_small by lia. lia.
Qed.

Lemma advance_0 buf : advance buf 0 = buf.
Proof. unfold advance. destruct buf. cbn. by rewrite Nat.add_0_r. Qed.

Lemma reads_as_ret {A} (a a' : A) : a = a' → reads_as (rret a) [] a'.
Proof. intros -> buf rest _. cbn [length]. by rewrite advance_0. Qed.

Lemma reads_as_bind {A B} (m : reader A) (k : A → reader B) bs1 bs2 a b :
  reads_as m bs1 a → reads_as (k a) bs2 b → reads_as (rbind m k) (bs1 ++ bs2) b.
Proof.
  intros Hm Hk buf rest Hdrop. rewrite <- app_assoc in Hdrop.
  rewrite (rbind_ok _ _ _ _ _ (Hm _ _ Hdrop)).
  rewrite (Hk (advance buf (length bs1)) rest).
  - by rewrite advance_advance, length_app.
  - by rewrite drop_advance, Hdrop, drop_app_length.
Qed.

Lemma reads_as_fixed {A} w (conv : list byte → A) bs :
  length bs = w → reads_as (read_fixed w conv) bs (conv bs).
Proof.
  intros Hlen buf rest Hdrop.
  destruct (read_fixed_exact w conv buf) as [Hin _].
  rewrite Hin, Hdrop, Hlen.
  - by rewrite <- Hlen, take_app_length.
  - rewrite <- avail_length, Hdrop, length_app. lia.
Qed.

Lemma reads_as_bio_read bs :
  reads_as (bio_read (len bs)) bs bs.
Proof.
  intros buf rest Hdrop. unfold len. rewrite bio_read_nonneg, Hdrop.
  rewrite take_app_length. do 2 f_equal.
  rewrite <- avail_length, Hdrop, length_app. f_equal. lia.
Qed.

Lemma reads_as_encode_str (s : str) :
  Forall (λ c, (0 ≤ c < 128)%Z) s → length s ≤ 255 →
  reads_as read_lp_string (encode_str s) s.
Proof.
  intros Hascii Hlen. unfold read_lp_string, encode_str.
  change (byte_of_Z (len s) :: map byte_of_Z s)
    with ([byte_of_Z (len s)] ++ map byte_of_Z s).
  eapply reads_as_bind; [by apply (reads_as_fixed 1 le_uint)|].
  cbn [le_uint]. rewrite byte_val_of_Z, Z.mod_small by (unfold len; lia).
  rewrite <- (app_nil_r (map byte_of_Z s)).
  eapply reads_as_bind.
  - replace (len s + 256 * 0)%Z with (len (map byte_of_Z s))
      by (unfold len; rewrite length_map; lia).
    apply reads_as_bio_read.
  - apply reads_as_ret. by apply utf8_decode_encode.
Qed.

Lemma le_uint_flag (b : bool) :
  le_uint [byte_of_Z (if b then 1 else 0)] = (if b then 1 else 0)%Z.
Proof. by destruct b. Qed.

Lemma reads_as_item_fields it :
  item_encodable it →
  reads_as decode_item_fields (item_fields_bytes it)
    (it, Z.of_nat (reserved (crafter_name it))).
Proof.
  destruct it as [nm st du eq qu va ci cn].
  intros (Hname & Hnamelen & Hst & Hdu & Hqu & Hva & Hci & Hcn).
  cbn [name stack durability equipped quality variant crafter_id
       crafter_name] in *.
  unfold decode_item_fields, item_fields_bytes.
  cbn [name stack durability equipped quality variant crafter_id
       crafter_name].
  eapply reads_as_bind; [by apply reads_as_encode_str|].
  eapply reads_as_bind;
    [apply (reads_as_fixed 4 (λ bs, to_signed 32 (le_uint bs)));
     apply length_le_bytes|].
  eapply reads_as_bind;
    [apply (reads_as_fixed 4 (λ bs, f32_of_bits (le_uint bs)));
     apply length_le_bytes|].
  eapply reads_as_bind; [by apply (reads_as_fixed 1 le_uint)|].
  eapply reads_as_bind;
    [apply (reads_as_fixed 4 (λ bs, to_signed 32 (le_uint bs)));
     apply length_le_bytes|].
  eapply reads_as_bind;
    [apply (reads_as_fixed 4 (λ bs, to_signed 32 (le_uint bs)));
     apply length_le_bytes|].
  eapply reads_as_bind;
    [apply (reads_as_fixed 8 le_uint); apply length_le_bytes|].
  eapply reads_as_bind; [by apply (reads_as_fixed 1 le_uint)|].
  cbv beta.
  rewrite !le_uint_signed by done.
  rewrite (le_uint_unsigned 4) by (by apply f32_bits_range).
  rewrite f32_of_bits_bits by done.
  rewrite (le_uint_unsigned 8) by done.
  rewrite le_uint_flag.
  assert (truthy_int (if eq then 1 else 0) = eq) as -> by (by destruct eq).
  destruct cn as [s|].
  - destruct Hcn as [Hs Hslen].
    change (le_uint [byte_of_Z 1]) with 1%Z.
    change (truthy_int 1) with true. cbv iota.
    rewrite <- (app_nil_r (encode_str s)).
    eapply reads_as_bind.
    + rewrite <- (app_nil_r (encode_str s)).
      eapply reads_as_bind; [apply reads_as_encode_str; [done | lia]|].
      by apply reads_as_ret.
    + apply reads_as_ret. f_equal. unfold item_remaining, reserved.
      change (truthy_int 1) with true. cbn [andb truthy_str default
                                            from_option id].
      destruct s as [|c s]; [done|]. unfold len. cbn [length] in *. lia.
  - change (le_uint [byte_of_Z 0]) with 0%Z.
    change (truthy_int 0) with false. cbv iota.
    rewrite <- (app_nil_r []).
    eapply reads_as_bind; [by apply reads_as_ret|].
    by apply reads_as_ret.
Qed.

Lemma reads_as_item it :
  item_encodable it → reads_as decode_item (encode_item it) it.
Proof.
  intros Hit. unfold decode_item, encode_item.
  eapply reads_as_bind; [by apply reads_as_item_fields|]. cbn [fst snd].
  rewrite <- (app_nil_r (replicate _ _)).
  eapply reads_as_bind; [|by apply reads_as_ret].
  replace (Z.of_nat (reserved (crafter_name it)))
    with (len (replicate (reserved (crafter_name it)) x00))
    by (unfold len; by rewrite length_replicate).
  apply reads_as_bio_read.
Qed.

Lemma reads_as_items items results :
  Forall item_encodable items →
  reads_as (decode_items_loop (length items) results)
    (concat (map encode_item items)) (results ++ items).
Proof.
  intros Hitems. revert results.
  induction Hitems as [|it items Hit _ IH]; intros results.
  - cbn. apply reads_as_ret. by rewrite app_nil_r.
  - cbn [length decode_items_loop map concat].
    eapply reads_as_bind; [by apply reads_as_item|].
    rewrite (cons_middle it results items), app_assoc. apply IH.
Qed.

(** The bytes the writer produces are read back as the items written. *)
Lemma reads_as_inventory header items :
  Forall item_encodable items →
  (len items < 2 ^ 32)%Z →
  reads_as
    (_header <- read_u32;;
     count <- read_u32;;
     decode_items_loop (Z.to_nat count) [])
    (encode_inventory header items) items.
Proof.
  intros Hitems Hcount. unfold encode_inventory.
  eapply reads_as_bind;
    [apply (reads_as_fixed 4 le_uint); apply length_le_bytes|].
  eapply reads_as_bind;
    [apply (reads_as_fixed 4 le_uint); apply length_le_bytes|].
  cbv beta. rewrite (le_uint_unsigned 4) by (unfold len in *; lia).
  unfold len. rewrite Nat2Z.id. by apply (reads_as_items items []).
Qed.

(** X8. Writing and reading back. For items the writer can write (ASCII
    names, crafter names of at most 16 characters, fields in the ranges
    of their formats), [decode_items] applied to the bytes of a header
    word, the item count and the records written one after the other
    returns these items, field for field, whatever the header word and
    whatever bytes follow the last record. *)
Theorem decode_items_encode header items trailing :
  Forall item_encodable items →
  (len items < 2 ^ 32)%Z →
  decode_items (encode_inventory header items ++ trailing) = Ok items.
Proof.
  intros Hitems Hcount. unfold decode_items.
  by rewrite (reads_as_inventory header items Hitems Hcount
                {| bio_data := _; bio_pos := 0 |} trailing).
Qed.

(** The code's [remaining] against the formula of the specification. *)
Lemma item_remaining_spec flag bs :
  (spec_remaining flag bs
   ≤ item_remaining flag (Some (utf8_decode_replace bs)) ≤ 17)%Z.
Proof.
  unfold spec_remaining, item_remaining, truthy_str, len.
  pose proof (utf8_decode_length bs).
  cbn [default from_option id].
  destruct (truthy_int flag); cbn [andb]; [|lia].
  destruct (utf8_decode_replace bs) eqn:Hd; cbn [length] in *; lia.
Qed.

(** * Further properties of the aggregation *)

Lemma stack_sum_app n l1 l2 :
  stack_sum n (l1 ++ l2) = (stack_sum n l1 + stack_sum n l2)%Z.
Proof.
  induction l1 as [|it l1 IH]; cbn [app stack_sum]; [done|].
  case_decide; lia.
Qed.

Section AggregateMore.
Variable str_lower : str → str.

Lemma chest_items_cons z zdos :
  chest_items str_lower (z :: zdos)
  = (if is_chest str_lower z then decoded_items z else [])
    ++ chest_items str_lower zdos.
Proof. reflexivity. Qed.

Lemma chest_items_app l1 l2 :
  chest_items str_lower (l1 ++ l2)
  = chest_items str_lower l1 ++ chest_items str_lower l2.
Proof.
  induction l1 as [|z l1 IH]; [done|].
  cbn [app]. by rewrite !chest_items_cons, IH, app_assoc.
Qed.

(** A call that returns has decoded every chest. *)
Lemma aggregate_chests_ok_inv zdos t :
  (aggregate_chests str_lower {| zdoList := Some zdos |}).2 = Ok t →
  ∀ z, z ∈ zdos → is_chest str_lower z = true →
       ∃ l, decode_chest_items z = Ok l.
Proof.
  intros Hok z Hz Hchest.
  destruct (decode_chest_items z) as [l|e] eqn:Hdec; [by eexists|].
  unfold aggregate_chests in Hok. cbn [zdoList default from_option id] in Hok.
  destruct (aggregate_loop_raise str_lower zdos
              {| totals := ∅; all_items := []; stdout := [] |}
              z e Hz Hchest Hdec) as (st' & e' & Hloop).
  rewrite Hloop in Hok. done.
Qed.

Lemma aggregate_chests_lookup zdos t n :
  (aggregate_chests str_lower {| zdoList := Some zdos |}).2 = Ok t →
  t !! n
  = if decide (n ∈ name <$> chest_items str_lower zdos)
    then Some (stack_sum n (chest_items str_lower zdos))
    else None.
Proof.
  intros Hok. pose proof (aggregate_chests_ok_inv zdos t Hok) as Hall.
  unfold aggregate_chests in Hok. cbn [zdoList default from_option id] in Hok.
  destruct (aggregate_loop_ok str_lower zdos
              {| totals := ∅; all_items := []; stdout := [] |} Hall)
    as (st' & Hloop & Ht).
  rewrite Hloop in Hok. cbn [snd] in Hok. injection Hok as <-.
  rewrite Ht, fold_add_total_lookup. cbn [totals].
  rewrite lookup_empty. case_decide; [|done]. by f_equal.
Qed.

(** X9. The totals do not depend on the order of the objects: two
    lists with the same objects in different orders, whose chests all
    decode, give the same totals. *)
Theorem aggregate_chests_permutation zdos zdos' t :
  zdos ≡ₚ zdos' →
  (aggregate_chests str_lower {| zdoList := Some zdos |}).2 = Ok t →
  (aggregate_chests str_lower {| zdoList := Some zdos' |}).2 = Ok t.
Proof.
  intros Hperm Hok.
  assert (∀ z, z ∈ zdos' → is_chest str_lower z = true →
               ∃ l, decode_chest_items z = Ok l) as Hall'.
  { intros z Hz. apply (aggregate_chests_ok_inv zdos t Hok). by rewrite Hperm. }
  assert (∃ t', (aggregate_chests str_lower {| zdoList := Some zdos' |}).2
                = Ok t') as [t' Hok'].
  { unfold aggregate_chests. cbn [zdoList default from_option id].
    destruct (aggregate_loop_ok str_lower zdos'
                {| totals := ∅; all_items := []; stdout := [] |} Hall')
      as (st' & -> & _). by eexists. }
  rewrite Hok'. f_equal. apply map_eq. intros n.
  rewrite (aggregate_chests_lookup _ _ n Hok),
    (aggregate_chests_lookup _ _ n Hok').
  assert (chest_items str_lower zdos ≡ₚ chest_items str_lower zdos') as Hitems.
  { clear -Hperm. induction Hperm as [|z l l' _ IH|z1 z2 l|l1 l2 l3 _ IH1 _ IH2].
    - done.
    - rewrite !chest_items_cons. by rewrite IH.
    - rewrite !chest_items_cons, !app_assoc. f_equiv. apply Permutation_app_comm.
    - by etrans. }
  assert (stack_sum n (chest_items str_lower zdos)
          = stack_sum n (chest_items str_lower zdos')) as ->.
  { clear -Hitems.
    induction Hitems as [|it l l' _ IH|it1 it2 l|l1 l2 l3 _ IH1 _ IH2];
      cbn [stack_sum]; [done | by rewrite IH | | congruence].
    repeat case_decide; lia. }
  apply decide_ext. by rewrite Hitems.
Qed.

(** X10. Aggregating a list made of two parts gives, name by name, the
    sum of the totals of the two parts: a name of both parts has the sum
    of its two totals, a name of one part keeps its total. *)
Theorem aggregate_chests_app l1 l2 t1 t2 :
  (aggregate_chests str_lower {| zdoList := Some l1 |}).2 = Ok t1 →
  (aggregate_chests str_lower {| zdoList := Some l2 |}).2 = Ok t2 →
  (aggregate_chests str_lower {| zdoList := Some (l1 ++ l2) |}).2
  = Ok (union_with (λ a b, Some (a + b)%Z) t1 t2).
Proof.
  intros Hok1 Hok2.
  assert (∀ z, z ∈ l1 ++ l2 → is_chest str_lower z = true →
               ∃ l, decode_chest_items z = Ok l) as Hall.
  { intros z [Hz|Hz]%elem_of_app.
    - by apply (aggregate_chests_ok_inv l1 t1).
    - by apply (aggregate_chests_ok_inv l2 t2). }
  assert (∃ t, (aggregate_chests str_lower {| zdoList := Some (l1 ++ l2) |}).2
               = Ok t) as [t Hok].
  { unfold aggregate_chests. cbn [zdoList default from_option id].
    destruct (aggregate_loop_ok str_lower (l1 ++ l2)
                {| totals := ∅; all_items := []; stdout := [] |} Hall)
      as (st' & -> & _). by eexists. }
  rewrite Hok. f_equal. apply map_eq. intros n.
  rewrite lookup_union_with.
  rewrite (aggregate_chests_lookup _ _ n Hok),
    (aggregate_chests_lookup _ _ n Hok1),
    (aggregate_chests_lookup _ _ n Hok2).
  rewrite chest_items_app, fmap_app, stack_sum_app.
  destruct (decide (n ∈ name <$> chest_items str_lower l1)) as [Ha|Ha],
           (decide (n ∈ name <$> chest_items str_lower l2)) as [Hb|Hb].
  - by rewrite decide_True by (apply elem_of_app; by left).
  - rewrite decide_True by (apply elem_of_app; by left).
    rewrite (stack_sum_absent n (chest_items str_lower l2)) by done.
    cbn. f_equal. lia.
  - rewrite decide_True by (apply elem_of_app; by right).
    rewrite (stack_sum_absent n (chest_items str_lower l1)) by done.
    cbn. f_equal.
  - by rewrite decide_False by (rewrite elem_of_app; tauto).
Qed.

Lemma aggregate_loop_stdout zdos st st' raised :
  aggregate_loop str_lower zdos st = (st', raised) →
  ∃ k, stdout st' = stdout st ++ replicate k (pystr "Chest has no inventory")
       ∧ (raised = None → k = empty_chests str_lower zdos).
Proof.
  revert st. induction zdos as [|z zdos IH]; intros st Hloop.
  { injection Hloop as <- <-. exists 0. by rewrite app_nil_r. }
  cbn [aggregate_loop] in Hloop.
  unfold empty_chests, is_empty_chest. cbn [List.filter].
  unfold aggregate_body in Hloop.
  destruct (is_chest str_lower z); cbn [andb].
  - destruct (truthy_str (zdo_items z)); cbn [negb].
    + destruct (decode_chest_items z) as [items|e].
      * apply IH in Hloop as (k & Hk & Hnone). exists k. split; [|done].
        rewrite Hk. f_equal. clear.
        revert st. induction items as [|it items IH]; intros st; [done|].
        cbn [fold_left]. by rewrite IH.
      * injection Hloop as <- <-. exists 0. split; [|done].
        by rewrite app_nil_r.
    + apply IH in Hloop as (k & Hk & Hnone). exists (S k). split.
      * rewrite Hk. cbn [print stdout]. rewrite <- app_assoc. done.
      * intros Hr. cbn [length]. f_equal. by apply Hnone.
  - apply IH in Hloop as (k & Hk & Hnone). by exists k.
Qed.

(** X11. What [aggregate_chests] prints: only lines that read
    [Chest has no inventory], and, when the call returns, one such line
    for each chest without inventory payload. With no ["zdoList"], or an
    empty one, it prints nothing and returns empty totals. *)
Theorem aggregate_chests_prints w :
  (∀ line, line ∈ (aggregate_chests str_lower w).1 →
           line = pystr "Chest has no inventory")
  ∧ (∀ t, (aggregate_chests str_lower w).2 = Ok t →
          (aggregate_chests str_lower w).1
          = replicate (empty_chests str_lower (default [] (zdoList w)))
              (pystr "Chest has no inventory"))
  ∧ (zdoList w = None ∨ zdoList w = Some [] →
     aggregate_chests str_lower w = ([], Ok ∅)).
Proof.
  unfold aggregate_chests.
  destruct (aggregate_loop str_lower (default [] (zdoList w))
              {| totals := ∅; all_items := []; stdout := [] |})
    as [st' raised] eqn:Hloop.
  pose proof (aggregate_loop_stdout _ _ _ _ Hloop) as (k & Hk & Hnone).
  cbn [stdout app fst snd] in *. split; [|split].
  - intros line Hline. rewrite Hk in Hline.
    by apply elem_of_replicate in Hline as [-> _].
  - intros t Ht. destruct raised; [done|]. by rewrite Hk, Hnone.
  - intros [Hw|Hw]; rewrite Hw in Hloop; cbn in Hloop;
      by injection Hloop as <- <-.
Qed.
End AggregateMore.

(** * Properties of the sheet of totals *)

Lemma str_le_refl s : str_le s s = true.
Proof.
  induction s as [|c s IH]; [done|]. cbn [str_le].
  rewrite Z.eqb_refl, IH. by rewrite orb_true_r.
Qed.

Lemma str_le_total s1 s2 : str_le s1 s2 = true ∨ str_le s2 s1 = true.
Proof.
  revert s2. induction s1 as [|c1 s1 IH]; intros [|c2 s2]; cbn [str_le];
    [by left|by left|by right|].
  destruct (Z.ltb_spec c1 c2); [by left|].
  destruct (Z.ltb_spec c2 c1); [by right|].
  assert (c1 = c2) as -> by lia. rewrite Z.eqb_refl. cbn [orb andb].
  apply IH.
Qed.

Lemma str_le_antisym s1 s2 :
  str_le s1 s2 = true → str_le s2 s1 = true → s1 = s2.
Proof.
  revert s2. induction s1 as [|c1 s1 IH]; intros [|c2 s2]; cbn [str_le];
    [done|done|done|].
  intros H1 H2.
  apply orb_true_iff in H1 as [H1|H1]; apply orb_true_iff in H2 as [H2|H2].
  - apply Z.ltb_lt in H1, H2. lia.
  - apply Z.ltb_lt in H1. apply andb_true_iff in H2 as [H2 _].
    apply Z.eqb_eq in H2. lia.
  - apply Z.ltb_lt in H2. apply andb_true_iff in H1 as [H1 _].
    apply Z.eqb_eq in H1. lia.
  - apply andb_true_iff in H1 as [Hc H1].
    apply andb_true_iff in H2 as [_ H2]. apply Z.eqb_eq in Hc as ->.
    f_equal. by apply IH.
Qed.

Lemma str_le_trans s1 s2 s3 :
  str_le s1 s2 = true → str_le s2 s3 = true → str_le s1 s3 = true.
Proof.
  revert s2 s3. induction s1 as [|c1 s1 IH]; intros [|c2 s2] [|c3 s3];
    cbn [str_le]; try done.
  intros H1 H2.
  apply orb_true_iff in H1 as [H1|H1]; apply orb_true_iff in H2 as [H2|H2].
  - apply Z.ltb_lt in H1, H2. apply orb_true_iff. left. apply Z.ltb_lt. lia.
  - apply Z.ltb_lt in H1. apply andb_true_iff in H2 as [H2 _].
    apply Z.eqb_eq in H2. apply orb_true_iff. left. apply Z.ltb_lt. lia.
  - apply Z.ltb_lt in H2. apply andb_true_iff in H1 as [H1 _].
    apply Z.eqb_eq in H1. apply orb_true_iff. left. apply Z.ltb_lt. lia.
  - apply andb_true_iff in H1 as [Hc1 H1].
    apply andb_true_iff in H2 as [Hc2 H2].
    apply Z.eqb_eq in Hc1 as ->. apply Z.eqb_eq in Hc2 as ->.
    rewrite Z.eqb_refl. cbn [andb]. rewrite (IH _ _ H1 H2).
    by rewrite orb_true_r.
Qed.

Lemma totals_le_spec x y :
  totals_le x y ↔ (y.2 < x.2)%Z ∨ (x.2 = y.2 ∧ str_le x.1 y.1 = true).
Proof.
  unfold totals_le, key_le, totals_key. cbn [fst snd].
  rewrite orb_true_iff, andb_true_iff, Z.ltb_lt, Z.eqb_eq. split.
  - intros [H|[H1 H2]]; [left; lia|right; split; [lia|done]].
  - intros [H|[H1 H2]]; [left; lia|right; split; [lia|done]].
Qed.

#[global] Instance totals_le_total : Total totals_le.
Proof.
  intros x y. rewrite !totals_le_spec.
  destruct (Z.lt_trichotomy x.2 y.2) as [H|[H|H]].
  - right. by left.
  - destruct (str_le_total x.1 y.1) as [Hs|Hs].
    + left. right. done.
    + right. right. done.
  - left. by left.
Qed.

#[global] Instance totals_le_trans : Transitive totals_le.
Proof.
  intros x y z. rewrite !totals_le_spec.
  intros [H1|[H1 Hs1]] [H2|[H2 Hs2]].
  - left. lia.
  - left. lia.
  - left. lia.
  - right. split; [lia|]. by apply str_le_trans with y.1.
Qed.

#[global] Instance totals_le_antisym : AntiSymm (=) totals_le.
Proof.
  intros [n1 c1] [n2 c2]. rewrite !totals_le_spec. cbn [fst snd].
  intros [H1|[H1 Hs1]] [H2|[H2 Hs2]]; try lia.
  f_equal; [by apply str_le_antisym|done].
Qed.

(** In a list without two items of one name that follows the order, an
    item comes strictly before every later one. *)
Lemma sorted_totals_before (items : list (str * Z)) i j x y :
  StronglySorted totals_le items → NoDup items.*1 →
  i < j → items !! i = Some x → items !! j = Some y →
  totals_before x y.
Proof.
  intros Hsorted. revert i j.
  induction Hsorted as [|a l Hl IH Hall]; intros i j Hnodup Hij Hi Hj;
    [done|].
  cbn [fmap list_fmap] in Hnodup. apply NoDup_cons in Hnodup as [Hnotin Hnodup].
  destruct j as [|j]; [lia|]. cbn in Hj.
  destruct i as [|i].
  - injection Hi as ->.
    assert (y ∈ l) as Hy by (by eapply list_elem_of_lookup_2).
    rewrite Forall_forall in Hall.
    specialize (Hall y Hy).
    apply totals_le_spec in Hall as [H|[H1 H2]]; [by left|].
    right. split; [done|]. split; [done|].
    intros Heq. apply Hnotin. rewrite Heq.
    apply list_elem_of_fmap. by exists y.
  - cbn in Hi. apply (IH i j); [done|lia|done|done].
Qed.

(** X12. The sheet [upload_totals] leaves: whatever the sheet held
    before, the header row followed by one row [name, count, now] for
    each entry of [totals] and nothing else, in the one order in which the
    counts never increase and, among equal counts, the names
    increase. Any ordering of the entries that follows the sort key is
    this one, so the order in which the dictionary lists its entries
    does not show. *)
Theorem upload_totals_sorted now sheet totals :
  ∃ items : list (str * Z),
    upload_totals now sheet totals
    = totals_header :: map (totals_row now) items
    ∧ items ≡ₚ map_to_list totals
    ∧ length (upload_totals now sheet totals) = S (size totals)
    ∧ (∀ name count, (name, count) ∈ items ↔ totals !! name = Some count)
    ∧ (∀ i j x y, i < j → items !! i = Some x → items !! j = Some y →
                  totals_before x y)
    ∧ (∀ l, l ≡ₚ map_to_list totals → StronglySorted totals_le l →
            l = items).
Proof.
  exists (merge_sort totals_le (map_to_list totals)).
  pose proof (merge_sort_Permutation totals_le (map_to_list totals)) as Hperm.
  pose proof (StronglySorted_merge_sort totals_le (map_to_list totals))
    as Hsorted.
  split; [|split; [|split; [|split; [|split]]]].
  - unfold upload_totals, totals_header, totals_row.
    by destruct (merge_sort totals_le (map_to_list totals)).
  - done.
  - assert (upload_totals now sheet totals
            = totals_header
              :: map (totals_row now)
                   (merge_sort totals_le (map_to_list totals))) as ->.
    { unfold upload_totals, totals_header, totals_row.
      by destruct (merge_sort totals_le (map_to_list totals)). }
    cbn [length]. rewrite length_map, Hperm.
    by rewrite length_map_to_list.
  - intros name count. rewrite Hperm. apply elem_of_map_to_list.
  - intros i j x y. apply sorted_totals_before; [done|].
    rewrite Hperm. apply NoDup_fst_map_to_list.
  - intros l Hl Hs.
    apply (StronglySorted_unique totals_le); [done|done|].
    by rewrite Hl, Hperm.
Qed.

(** * Properties of [decode_chest_items] *)

(** ** Base64 *)

Lemma forallb_seqZ (P : Z → bool) (n : Z) :
  forallb P (seqZ 0 n) = true → ∀ x, (0 ≤ x < n)%Z → P x = true.
Proof.
  intros H x Hx. rewrite forallb_forall in H. apply H.
  apply list_elem_of_In, elem_of_seqZ. lia.
Qed.

Lemma byte_of_Z_val b : byte_of_Z (byte_val b) = b.
Proof. by destruct b. Qed.

Lemma b64_char_ascii d : (b64_char d <? 128)%Z = true.
Proof. unfold b64_char. repeat case_match; lia. Qed.

Lemma b64_char_digit d :
  (0 ≤ d < 64)%Z →
  (b64_char d =? 61)%Z = false ∧ b64_digit (b64_char d) = Some d.
Proof.
  intros Hd.
  pose (P := λ d : Z, negb (b64_char d =? 61)%Z
                       && bool_decide (b64_digit (b64_char d) = Some d)).
  assert (P d = true) as H
    by (apply (forallb_seqZ P 64); [vm_compute; reflexivity | done]).
  unfold P in H. apply andb_true_iff in H as [H1 H2].
  apply negb_true_iff in H1. by apply bool_decide_eq_true in H2.
Qed.

Lemma b64_first x y :
  (0 ≤ x < 256)%Z → (0 ≤ y < 256)%Z →
  (0 ≤ Z.shiftr x 2 < 64)%Z
  ∧ (0 ≤ digit2 x y < 64)%Z
  ∧ Z.lor (Z.shiftl (Z.shiftr x 2) 2) (Z.shiftr (digit2 x y) 4) = x
  ∧ Z.land (digit2 x y) 15 = Z.shiftr y 4.
Proof.
  intros Hx Hy.
  pose (P := λ x y : Z,
          bool_decide ((0 ≤ Z.shiftr x 2 < 64)%Z
            ∧ (0 ≤ digit2 x y < 64)%Z
            ∧ Z.lor (Z.shiftl (Z.shiftr x 2) 2) (Z.shiftr (digit2 x y) 4) = x
            ∧ Z.land (digit2 x y) 15 = Z.shiftr y 4)).
  pose (Q := λ x : Z, forallb (P x) (seqZ 0 256)).
  assert (Q x = true) as H
    by (apply (forallb_seqZ Q 256); [vm_compute; reflexivity | done]).
  apply (forallb_seqZ (P x) 256 H) in Hy.
  by apply bool_decide_eq_true in Hy.
Qed.

Lemma b64_second y z :
  (0 ≤ y < 256)%Z → (0 ≤ z < 256)%Z →
  (0 ≤ digit3 y z < 64)%Z
  ∧ (0 ≤ Z.land z 63 < 64)%Z
  ∧ Z.lor (Z.shiftl (Z.shiftr y 4) 4) (Z.shiftr (digit3 y z) 2) = y
  ∧ Z.land (digit3 y z) 3 = Z.shiftr z 6
  ∧ Z.lor (Z.shiftl (Z.shiftr z 6) 6) (Z.land z 63) = z.
Proof.
  intros Hy Hz.
  pose (P := λ y z : Z,
          bool_decide ((0 ≤ digit3 y z < 64)%Z
            ∧ (0 ≤ Z.land z 63 < 64)%Z
            ∧ Z.lor (Z.shiftl (Z.shiftr y 4) 4) (Z.shiftr (digit3 y z) 2) = y
            ∧ Z.land (digit3 y z) 3 = Z.shiftr z 6
            ∧ Z.lor (Z.shiftl (Z.shiftr z 6) 6) (Z.land z 63) = z)).
  pose (Q := λ y : Z, forallb (P y) (seqZ 0 256)).
  assert (Q y = true) as H
    by (apply (forallb_seqZ Q 256); [vm_compute; reflexivity | done]).
  apply (forallb_seqZ (P y) 256 H) in Hz.
  by apply bool_decide_eq_true in Hz.
Qed.

(** One digit of the alphabet, from each position of a group. *)
Lemma a2b_base64_digit d s quad_pos leftchar pads out :
  (0 ≤ d < 64)%Z →
  a2b_base64 (b64_char d :: s) quad_pos leftchar pads out
  = if (quad_pos =? 0)%Z then a2b_base64 s 1 d 0 out
    else if (quad_pos =? 1)%Z then
      a2b_base64 s 2 (Z.land d 15) 0
        (out ++ [byte_of_Z (Z.lor (Z.shiftl leftchar 2) (Z.shiftr d 4))])
    else if (quad_pos =? 2)%Z then
      a2b_base64 s 3 (Z.land d 3) 0
        (out ++ [byte_of_Z (Z.lor (Z.shiftl leftchar 4) (Z.shiftr d 2))])
    else
      a2b_base64 s 0 0 0
        (out ++ [byte_of_Z (Z.lor (Z.shiftl leftchar 6) d)]).
Proof.
  intros Hd. destruct (b64_char_digit d Hd) as [Hne Hdigit].
  cbn [a2b_base64]. by rewrite Hne, Hdigit.
Qed.

(** The first two digits of a group give back its first byte. *)
Lemma a2b_base64_two b0 y s out :
  (0 ≤ y < 256)%Z →
  a2b_base64 (b64_char (Z.shiftr (byte_val b0) 2)
              :: b64_char (digit2 (byte_val b0) y) :: s) 0 0 0 out
  = a2b_base64 s 2 (Z.shiftr y 4) 0 (out ++ [b0]).
Proof.
  intros Hy.
  destruct (b64_first (byte_val b0) y (byte_val_bound b0) Hy)
    as (H1 & H2 & Hbyte & Hleft).
  rewrite (a2b_base64_digit _ _ _ _ _ _ H1). cbn [Z.eqb].
  rewrite (a2b_base64_digit _ _ _ _ _ _ H2). cbn [Z.eqb Pos.eqb].
  by rewrite Hbyte, Hleft, byte_of_Z_val.
Qed.

(** The third digit gives back the second byte. *)
Lemma a2b_base64_third b1 z s out :
  (0 ≤ z < 256)%Z →
  a2b_base64 (b64_char (digit3 (byte_val b1) z) :: s) 2
    (Z.shiftr (byte_val b1) 4) 0 out
  = a2b_base64 s 3 (Z.shiftr z 6) 0 (out ++ [b1]).
Proof.
  intros Hz.
  destruct (b64_second (byte_val b1) z (byte_val_bound b1) Hz)
    as (H3 & _ & Hbyte & Hleft & _).
  rewrite (a2b_base64_digit _ _ _ _ _ _ H3). cbn [Z.eqb Pos.eqb].
  by rewrite Hbyte, Hleft, byte_of_Z_val.
Qed.

Lemma a2b_base64_encode bs out :
  a2b_base64 (b64encode bs) 0 0 0 out = Ok (out ++ bs).
Proof.
  remember (length bs) as n eqn:Hn. revert bs out Hn.
  induction n as [n IH] using lt_wf_ind. intros bs out Hn.
  destruct bs as [|b0 [|b1 [|b2 rest]]].
  - cbn [b64encode a2b_base64 Z.eqb]. by rewrite app_nil_r.
  - cbn [b64encode]. cbv zeta.
    replace (Z.shiftl (Z.land (byte_val b0) 3) 4)
      with (digit2 (byte_val b0) 0) by apply Z.lor_0_r.
    rewrite a2b_base64_two by lia. reflexivity.
  - cbn [b64encode]. cbv zeta.
    change (Z.lor (Z.shiftl (Z.land (byte_val b0) 3) 4)
              (Z.shiftr (byte_val b1) 4))
      with (digit2 (byte_val b0) (byte_val b1)).
    rewrite a2b_base64_two by apply byte_val_bound.
    replace (Z.shiftl (Z.land (byte_val b1) 15) 2)
      with (digit3 (byte_val b1) 0) by apply Z.lor_0_r.
    rewrite a2b_base64_third by lia.
    cbn [a2b_base64 Z.eqb Pos.eqb Z.leb Z.compare Pos.compare
         Pos.compare_cont Z.add Pos.add].
    by rewrite <- app_assoc.
  - cbn [b64encode]. cbv zeta.
    change (Z.lor (Z.shiftl (Z.land (byte_val b0) 3) 4)
              (Z.shiftr (byte_val b1) 4))
      with (digit2 (byte_val b0) (byte_val b1)).
    change (Z.lor (Z.shiftl (Z.land (byte_val b1) 15) 2)
              (Z.shiftr (byte_val b2) 6))
      with (digit3 (byte_val b1) (byte_val b2)).
    cbn [app].
    rewrite a2b_base64_two by apply byte_val_bound.
    rewrite a2b_base64_third by apply byte_val_bound.
    destruct (b64_second (byte_val b1) (byte_val b2) (byte_val_bound b1)
                (byte_val_bound b2)) as (_ & H4 & _ & _ & Hbyte).
    rewrite (a2b_base64_digit _ _ _ _ _ _ H4). cbn [Z.eqb Pos.eqb].
    rewrite Hbyte, byte_of_Z_val.
    rewrite (IH (length rest)) with (bs := rest);
      [|cbn [length] in Hn; lia|done].
    by rewrite <- !app_assoc.
Qed.

Lemma b64encode_ascii bs : forallb (λ c, (c <? 128)%Z) (b64encode bs) = true.
Proof.
  remember (length bs) as n eqn:Hn. revert bs Hn.
  induction n as [n IH] using lt_wf_ind. intros bs Hn.
  destruct bs as [|b0 [|b1 [|b2 rest]]]; cbn [b64encode]; cbv zeta;
    cbn [forallb app]; rewrite ?b64_char_ascii; cbn [andb]; try done.
  apply (IH (length rest)); [cbn [length] in Hn; lia|done].
Qed.

Lemma b64decode_encode bs : b64decode (b64encode bs) = Ok bs.
Proof.
  unfold b64decode. by rewrite b64encode_ascii, a2b_base64_encode.
Qed.

(** The writer gives the text of the sample payload. *)
Lemma b64encode_wood_payload : b64encode wood_payload = wood_b64.
Proof. vm_compute. reflexivity. Qed.

(** ** Exceptions, and writing and reading back *)

Lemma a2b_base64_raises s quad_pos leftchar pads out e :
  a2b_base64 s quad_pos leftchar pads out = Raise e → e = BinasciiError.
Proof.
  revert quad_pos leftchar pads out.
  induction s as [|c s IH]; intros quad_pos leftchar pads out;
    cbn [a2b_base64].
  - case_match; congruence.
  - repeat case_match; try done; apply IH.
Qed.

(** X13. The exceptions of [decode_chest_items]: it raises only for an
    object with a non-empty ["items"] string, and then [ValueError] when
    the string has a character that is not ASCII, [binascii.Error] when
    the string is ASCII and is not complete base64, and [struct.error]
    when the base64 text decodes to bytes the inventory decoder cannot
    read to the end; nothing else. *)
Theorem decode_chest_items_raises z e :
  decode_chest_items z = Raise e →
  ∃ s, zdo_items z = Some s ∧ s ≠ []
       ∧ ((e = ValueError ∧ ∃ c, c ∈ s ∧ (128 ≤ c)%Z)
          ∨ (e = BinasciiError ∧ Forall (λ c, (c < 128)%Z) s
             ∧ b64decode s = Raise BinasciiError)
          ∨ (e = StructError
             ∧ ∃ raw, b64decode s = Ok raw
                      ∧ decode_items raw = Raise StructError)).
Proof.
  unfold decode_chest_items. intros Hraise.
  destruct (zdo_items z) as [[|c s]|] eqn:Hitems; cbn in Hraise; try done.
  exists (c :: s). split; [done|]. split; [done|].
  change (default [] (Some (c :: s))) with (c :: s) in Hraise.
  destruct (b64decode (c :: s)) as [raw|e'] eqn:Hb64; cbn in Hraise.
  - right. right. pose proof (decode_items_raises raw e Hraise) as ->.
    split; [done|]. by exists raw.
  - injection Hraise as ->. unfold b64decode in Hb64.
    destruct (forallb _ (c :: s)) eqn:Hascii.
    + right. left.
      pose proof (a2b_base64_raises _ _ _ _ _ _ Hb64) as ->.
      split; [done|]. split.
      * apply Forall_forall. intros x Hx.
        rewrite forallb_forall in Hascii.
        apply Z.ltb_lt, Hascii. by apply list_elem_of_In.
      * done.
    + left. injection Hb64 as <-. split; [done|].
      clear Hitems. revert Hascii. generalize (c :: s). clear.
      induction l as [|x l IH]; cbn [forallb]; [done|].
      destruct (Z.ltb_spec x 128) as [Hx|Hx]; cbn [andb].
      * intros (y & Hy & Hge)%IH. exists y. split; [by right|done].
      * intros _. exists x. split; [by left|done].
Qed.

(** X14. Writing and reading back, through the export: for an object
    whose ["items"] string is the base64 text of an inventory the writer
    produces, [decode_chest_items] returns the items written. *)
Theorem decode_chest_items_encode header items z :
  Forall item_encodable items →
  (len items < 2 ^ 32)%Z →
  zdo_items z = Some (b64encode (encode_inventory header items)) →
  decode_chest_items z = Ok items.
Proof.
  intros Hitems Hcount Hz. unfold decode_chest_items. rewrite Hz.
  assert (truthy_str (Some (b64encode (encode_inventory header items))) = true)
    as ->.
  { unfold encode_inventory. cbn [le_bytes app b64encode]. reflexivity. }
  cbn [negb]. unfold default, from_option, id.
  rewrite b64decode_encode. cbn [mbind result_bind].
  unfold decode_items.
  pose proof (reads_as_inventory header items Hitems Hcount
                {| bio_data := encode_inventory header items; bio_pos := 0 |}
                []) as Hreads.
  rewrite Hreads; [done|]. cbn [bio_pos bio_data drop]. by rewrite app_nil_r.
Qed.

(** * The further properties on the sample inputs *)

(** A file of one record and nothing else has no skill block. *)
Lemma decode_skills_raises_single_record :
  decode_skills axes_map single_record = Raise RuntimeError.
Proof.
  apply (proj2 (proj2 (decode_skills_raises axes_map single_record))).
  vm_compute. lia.
Defined.

Lemma decode_skills_table_duplicate_block :
  ∃ start count recs,
    find_skills_block duplicate_block = Ok (Some start, count)
    ∧ records_from duplicate_block start recs
    ∧ (∀ r, r ∈ recs → is_Some (duplicate_skills !! skill_name axes_map r.1))
    ∧ (∀ n l, duplicate_skills !! n = Some l →
              ∃ r, r ∈ recs ∧ skill_name axes_map r.1 = n ∧ l = round2 r.2)
    ∧ 1 ≤ size duplicate_skills ≤ length recs.
Proof.
  apply (decode_skills_table axes_map duplicate_block duplicate_skills).
  vm_compute. reflexivity.
Defined.

Lemma decode_skills_reads_duplicate_block :
  2 = 64 `min` 2
  ∧ decode_skills axes_map duplicate_block
    = Ok (fold_left (store_skill axes_map)
            [(7%Z, F32Fin false 13107200 (-17));
             (7%Z, F32Fin false 8388608 (-24))] ∅).
Proof.
  apply (decode_skills_reads_past_cap axes_map duplicate_block 0 2
           [(7%Z, F32Fin false 13107200 (-17));
            (7%Z, F32Fin false 8388608 (-24))]).
  - vm_compute. reflexivity.
  - exact duplicate_block_records.
Defined.


Lemma decode_items_count_wood_payload :
  Z.of_nat (length [wood_item None]) = le_uint (take 4 (drop 4 wood_payload))
  ∧ 8 + 27 * length [wood_item None] ≤ length wood_payload.
Proof.
  apply (proj1 (decode_items_count wood_payload) [wood_item None]).
  vm_compute. reflexivity.
Defined.

Lemma decode_items_in_range_wood_payload : item_in_range (wood_item None).
Proof.
  apply (decode_items_in_range wood_payload [wood_item None]).
  - vm_compute. reflexivity.
  - apply list_elem_of_singleton. reflexivity.
Defined.

Lemma wood_item_encodable crafter :
  match crafter with
  | Some s => Forall (λ c, (0 ≤ c < 128)%Z) s ∧ length s ≤ 16
  | None => True
  end →
  item_encodable (wood_item crafter).
Proof.
  intros Hc. unfold item_encodable, f32_canonical.
  cbn [wood_item name stack durability quality variant crafter_id
       crafter_name].
  split; [apply (bool_decide_unpack _); vm_compute; reflexivity|].
  split; [vm_compute; lia|].
  split; [lia|].
  split; [right; lia|].
  split; [lia|]. split; [lia|]. split; [lia|]. done.
Qed.

Lemma decode_items_encode_two_items :
  decode_items (encode_inventory 1 two_items ++ bytes_of [255; 255]%Z)
  = Ok two_items.
Proof.
  apply (decode_items_encode 1 two_items (bytes_of [255; 255]%Z)).
  - unfold two_items.
    constructor; [|constructor; [|constructor]].
    + apply wood_item_encodable. split; [|vm_compute; lia].
      apply (bool_decide_unpack _). vm_compute. reflexivity.
    + by apply wood_item_encodable.
  - vm_compute. reflexivity.
Defined.

Lemma aggregate_chests_permutation_chest_player :
  (aggregate_chests (map ascii_lower) {| zdoList := Some player_then_chest |}).2
  = Ok {[ pystr "Wood" := 10%Z ]}.
Proof.
  apply (aggregate_chests_permutation (map ascii_lower)
           chest_then_player player_then_chest).
  - apply perm_swap.
  - vm_compute. reflexivity.
Defined.

Lemma aggregate_chests_app_chest_player :
  (aggregate_chests (map ascii_lower)
     {| zdoList := Some (chest_then_player ++ player_then_chest) |}).2
  = Ok (union_with (λ a b, Some (a + b)%Z)
          {[ pystr "Wood" := 10%Z ]} {[ pystr "Wood" := 10%Z ]}).
Proof.
  apply (aggregate_chests_app (map ascii_lower)
           chest_then_player player_then_chest).
  - vm_compute. reflexivity.
  - vm_compute. reflexivity.
Defined.

(** The sheet of three totals, two of them equal. *)
Lemma upload_totals_sample_totals :
  upload_totals (pystr "12:00:00") [[CellStr (pystr "stale")]]
    sample_totals
  = [totals_header;
     [CellStr (pystr "Stone"); CellInt 20; CellStr (pystr "12:00:00")];
     [CellStr (pystr "Wood"); CellInt 20; CellStr (pystr "12:00:00")];
     [CellStr (pystr "Axe"); CellInt 1; CellStr (pystr "12:00:00")]].
Proof.
  destruct (upload_totals_sorted (pystr "12:00:00")
              [[CellStr (pystr "stale")]] sample_totals)
    as (items & Heq & _ & _ & _ & _ & Huniq).
  rewrite Heq.
  rewrite <- (Huniq [(pystr "Stone", 20%Z); (pystr "Wood", 20%Z);
                     (pystr "Axe", 1%Z)]).
  - reflexivity.
  - apply NoDup_Permutation.
    + apply (bool_decide_unpack _). vm_compute. reflexivity.
    + apply NoDup_map_to_list.
    + intros [n c]. rewrite elem_of_map_to_list.
      rewrite !elem_of_cons, elem_of_nil. unfold sample_totals. split.
      * intros [[= -> ->]|[[= -> ->]|[[= -> ->]|[]]]]; vm_compute; reflexivity.
      * intros H. apply lookup_insert_Some in H as [[<- <-]|[_ H]]; [auto|].
        apply lookup_insert_Some in H as [[<- <-]|[_ H]]; [auto|].
        apply lookup_singleton_Some in H as [<- <-]. auto.
  - repeat constructor; vm_compute; reflexivity.
Defined.

Lemma decode_chest_items_raises_truncated :
  ∃ s, zdo_items (object_with_items "piece_chest_wood" truncated_b64) = Some s
       ∧ s ≠ []
       ∧ ((StructError = ValueError ∧ ∃ c, c ∈ s ∧ (128 ≤ c)%Z)
          ∨ (StructError = BinasciiError ∧ Forall (λ c, (c < 128)%Z) s
             ∧ b64decode s = Raise BinasciiError)
          ∨ (StructError = StructError
             ∧ ∃ raw, b64decode s = Ok raw
                      ∧ decode_items raw = Raise StructError)).
Proof.
  apply (decode_chest_items_raises
           (object_with_items "piece_chest_wood" truncated_b64) StructError).
  vm_compute. reflexivity.
Defined.

Lemma decode_chest_items_encode_wood :
  decode_chest_items (object_with_items "piece_chest_wood" wood_b64)
  = Ok [wood_item None].
Proof.
  apply (decode_chest_items_encode 1 [wood_item None]).
  - constructor; [|constructor]. by apply wood_item_encodable.
  - vm_compute. reflexivity.
  - vm_compute. reflexivity.
Defined.
